(** * Corridor toolkit: linear referencing along a corridor axis

    A shallow embedding of the core of the corridor toolkit
    ([src/chainage.py], [src/geometry.py], [src/annotate.py]) and the
    properties of its chainage codec, marker generation, planar projection,
    line normalisation and feature annotation; then of the functions around
    the core that compute without files: the marker tables
    ([src/outputs_tables.py]), the CRS helpers ([src/crs.py]), the borehole
    identifiers ([src/geology.py]) and the angle labels
    ([src/outputs_maps.py]).

    Numbers.  A Python [float] or [int] distance is modelled by the rational
    number it denotes ([Q]); [nan] and the infinities are not distances and are
    left out, and so is the rounding error of floating-point addition.
    Rationals are compared with [==] ([Qeq]).  Strings are strings of ASCII
    characters; what Python does with the rest of Unicode is left out (the
    degree sign of the map labels is written as the character 176). *)

From Stdlib Require Import ZArith QArith Qround Qabs String Ascii List Bool.
From Stdlib Require Import Lia Lra Psatz.
From Stdlib Require Import DecimalString DecimalZ.
From Stdlib Require Import Permutation Sorted.
Import ListNotations.

Local Open Scope string_scope.
Local Open Scope Z_scope.

(** ** Python built-ins used by the toolkit *)

Module Py.

(** The exceptions the core raises or lets escape. *)
Inductive exn : Type :=
| ValueError
| IndexError
| TypeError
| AttributeError
| KeyError.

(** A call either returns or raises. *)
Inductive result (A : Type) : Type :=
| Ok (a : A)
| Raise (e : exn).
Arguments Ok {A} a.
Arguments Raise {A} e.

Definition bind {A B} (r : result A) (k : A -> result B) : result B :=
  match r with
  | Ok a => k a
  | Raise e => Raise e
  end.

(** [round(x)] with one argument: the nearest integer, a tie going to the
    even neighbour (what [float.__round__] does), returned as an [int]. *)
Definition round (x : Q) : Z :=
  let f := Qfloor x in
  match (x - inject_Z f ?= 1 # 2)%Q with
  | Lt => f
  | Gt => f + 1
  | Eq => if Z.even f then f else f + 1
  end.

(** [divmod(a, b)] on integers: floor division, remainder with the sign of
    the divisor. *)
Definition divmod (a b : Z) : Z * Z := (a / b, a mod b).

(** [str(n)] of an [int], which is also how an f-string renders [{n}]. *)
Definition str (n : Z) : string := NilZero.string_of_int (Z.to_int n).

(** [c * n] for a one-character string. *)
Fixpoint repeat_char (c : ascii) (n : nat) : string :=
  match n with
  | O => EmptyString
  | S n' => String c (repeat_char c n')
  end.

(** The format spec [0{w}d]: sign first, then zeros up to width [w]. *)
Definition format_0d (w : nat) (n : Z) : string :=
  let digits := str (Z.abs n) in
  if n <? 0
  then String "-" (repeat_char "0" (w - 1 - String.length digits) ++ digits)
  else repeat_char "0" (w - String.length digits) ++ digits.

(** [str.upper] on 8-bit characters: [a]..[z] go to [A]..[Z]. *)
Definition upper_char (c : ascii) : ascii :=
  let n := nat_of_ascii c in
  if ((97 <=? n) && (n <=? 122))%nat then ascii_of_nat (n - 32) else c.

Fixpoint upper (s : string) : string :=
  match s with
  | EmptyString => EmptyString
  | String c s' => String (upper_char c) (upper s')
  end.

(** [s.replace(c, "")] for a one-character [c]: every occurrence goes. *)
Fixpoint remove_char (c : ascii) (s : string) : string :=
  match s with
  | EmptyString => EmptyString
  | String a s' =>
      if Ascii.eqb a c then remove_char c s' else String a (remove_char c s')
  end.

(** [s.split(sep)] for a one-character separator: always at least one
    part, [n] separators give [n + 1] parts. *)
Fixpoint split (sep : ascii) (s : string) : list string :=
  match s with
  | EmptyString => [EmptyString]
  | String a s' =>
      if Ascii.eqb a sep then EmptyString :: split sep s'
      else match split sep s' with
           | part :: parts => String a part :: parts
           | [] => [String a EmptyString]
           end
  end.

(** [parts[i]]: an [IndexError] past the end. *)
Definition getitem {A} (l : list A) (i : nat) : result A :=
  match nth_error l i with
  | Some a => Ok a
  | None => Raise IndexError
  end.

(** White space as [int()] strips it. *)
Definition is_space (c : ascii) : bool :=
  let n := nat_of_ascii c in
  ((n =? 32) || ((9 <=? n) && (n <=? 13)) || ((28 <=? n) && (n <=? 31)))%nat.

Fixpoint lstrip (s : string) : string :=
  match s with
  | EmptyString => EmptyString
  | String c s' => if is_space c then lstrip s' else s
  end.

Fixpoint rstrip (s : string) : string :=
  match s with
  | EmptyString => EmptyString
  | String c s' =>
      match rstrip s' with
      | EmptyString => if is_space c then EmptyString else String c EmptyString
      | t => String c t
      end
  end.

Definition strip (s : string) : string := lstrip (rstrip s).

Definition is_digit (c : ascii) : bool :=
  let n := nat_of_ascii c in ((48 <=? n) && (n <=? 57))%nat.

(** The digits of an integer literal: decimal digits, where single
    underscores may stand between two digits.  [after_digit] tells whether
    the previous character was a digit. *)
Fixpoint literal_digits (after_digit : bool) (s : string) : option Decimal.uint :=
  match s with
  | EmptyString => if after_digit then Some Decimal.Nil else None
  | String c s' =>
      if Ascii.eqb c "_"
      then if after_digit
           then match s' with
                | EmptyString => None
                | String c' _ =>
                    if is_digit c' then literal_digits false s' else None
                end
           else None
      else uint_of_char c (literal_digits true s')
  end.

(** [int(s)] in base 10: surrounding white space, an optional sign, then
    the digits; anything else is a [ValueError]. *)
Definition int (s : string) : result Z :=
  let unsigned t :=
    match literal_digits false t with
    | Some d => Some (Z.of_uint d)
    | None => None
    end in
  let signed :=
    match strip s with
    | String "-" t => option_map Z.opp (unsigned t)
    | String "+" t => unsigned t
    | t => unsigned t
    end in
  match signed with
  | Some z => Ok z
  | None => Raise ValueError
  end.

End Py.

(** ** The planar geometry the toolkit gets from its geometry library *)

Module Shapely.
Local Open Scope Q_scope.

Definition Point : Type := (Q * Q)%type.

(** A [LineString] is its vertex sequence, [line.coords]. *)
Definition LineString : Type := list Point.

(** The geometry kinds, told apart by [geom_type]. *)
Inductive geometry : Type :=
| GPoint (p : Point)
| GLineString (coords : LineString)
| GLinearRing (coords : list Point)
| GPolygon (shell : list Point)
| GMultiPoint (geoms : list Point)
| GMultiLineString (geoms : list LineString)
| GMultiPolygon (geoms : list (list Point)).

Definition geom_type (g : geometry) : string :=
  match g with
  | GPoint _ => "Point"
  | GLineString _ => "LineString"
  | GLinearRing _ => "LinearRing"
  | GPolygon _ => "Polygon"
  | GMultiPoint _ => "MultiPoint"
  | GMultiLineString _ => "MultiLineString"
  | GMultiPolygon _ => "MultiPolygon"
  end.

Definition point_eqb (a b : Point) : bool :=
  Qeq_bool (fst a) (fst b) && Qeq_bool (snd a) (snd b).

(** Modelled from the spec: [shapely.ops.linemerge], which is not part of
    the repository.  Section 4.3: "if the parts chain end-to-end into one
    continuous path, return the merged single line preserving vertex
    order"; parts that do not chain stay a multi-part line.  [chain_parts]
    extends the path by the next part when that part starts where the path
    ends; the shared vertex is kept once. *)
Fixpoint chain_parts (path : list Point) (parts : list LineString)
  : option (list Point) :=
  match parts with
  | [] => Some path
  | part :: parts' =>
      match path, part with
      | _ :: _, v :: vs =>
          if point_eqb (last path v) v
          then chain_parts (path ++ vs) parts'
          else None
      | _, _ => None
      end
  end.

(** Modelled from the spec: [linemerge(geom)] gives the merged line when
    the parts chain, and the multi-part line as it is when they do not. *)
Definition linemerge (geoms : list LineString) : geometry :=
  match geoms with
  | first :: rest =>
      match chain_parts first rest with
      | Some path => GLineString path
      | None => GMultiLineString geoms
      end
  | [] => GMultiLineString geoms
  end.

Definition clamp (lo hi t : Q) : Q :=
  if Qle_bool t lo then lo else if Qle_bool hi t then hi else t.

Definition dist2 (p q : Point) : Q :=
  (fst p - fst q) * (fst p - fst q) + (snd p - snd q) * (snd p - snd q).

(** The point of segment [a]-[b] at parameter [t]. *)
Definition seg_point (a b : Point) (t : Q) : Point :=
  (fst a + t * (fst b - fst a), snd a + t * (snd b - snd a)).

(** The scalar parameter of the orthogonal projection of [p] on the
    carrier of [a]-[b]. *)
Definition projection_factor (p a b : Point) : Q :=
  let dx := fst b - fst a in
  let dy := snd b - snd a in
  ((fst p - fst a) * dx + (snd p - snd a) * dy) / (dx * dx + dy * dy).

Section Planar.
(** The square root of the geometry library: a rounded one in floating
    point, so the model leaves it open. *)
Variable sqrt : Q -> Q.

Definition seg_length (a b : Point) : Q := sqrt (dist2 b a).

(** Modelled from the spec: [line.length], the "total length" of the
    alignment: the sum of the lengths of its segments. *)
Fixpoint length (coords : LineString) : Q :=
  match coords with
  | a :: (b :: _) as tl => seg_length a b + length tl
  | _ => 0
  end.

(** Modelled from the spec: [LineString.project], which is not part of
    the repository.  Section 4.2: "project scalar parameter onto each
    segment, clamp to [0,1], evaluate, keep global minimum distance";
    the result is the arc length from the start vertex to the closest
    point.  [start] is the arc length at the current segment's first
    vertex, [best] the least squared distance so far with its arc
    length; distances are compared through their squares. *)
Fixpoint sweep (p : Point) (coords : LineString) (start : Q)
  (best : option (Q * Q)) : option (Q * Q) :=
  match coords with
  | a :: (b :: _) as tl =>
      let t := clamp 0 1 (projection_factor p a b) in
      let d2 := dist2 p (seg_point a b t) in
      let m := start + t * seg_length a b in
      let best' :=
        match best with
        | Some (bd2, _) => if Qle_bool bd2 d2 then best else Some (d2, m)
        | None => Some (d2, m)
        end in
      sweep p tl (start + seg_length a b) best'
  | _ => best
  end.

(** Modelled from the spec: [line.project(point)], the arc length the sweep
    ends with. *)
Definition project (line : LineString) (p : Point) : Q :=
  match sweep p line 0 None with
  | Some (_, m) => m
  | None => 0
  end.

(** Modelled from the spec: [point.distance(line)], section 4.2: "the
    Euclidean distance from point to the nearest point on the alignment",
    the least distance found by the sweep. *)
Definition distance (p : Point) (line : LineString) : Q :=
  match sweep p line 0 None with
  | Some (d2, _) => sqrt d2
  | None => 0
  end.

(** Modelled from the spec: [LineString.interpolate], "the alignment
    point at that distance" from the start; a distance outside
    [0, length] gives the nearer end. *)
Fixpoint walk (coords : LineString) (d : Q) : Point :=
  match coords with
  | a :: (b :: _) as tl =>
      let len := seg_length a b in
      if Qle_bool d len then seg_point a b (d / len) else walk tl (d - len)
  | [a] => a
  | [] => (0, 0)
  end.

(** Modelled from the spec: [line.interpolate(distance)]. *)
Definition interpolate (line : LineString) (d : Q) : Point :=
  walk line (clamp 0 (length line) d).

End Planar.

(** A square root that can be run: the root of [q] rounded down to a
    multiple of [1 / Qden q].  It is exact on squares. *)
Definition sqrt_floor (q : Q) : Q :=
  Z.sqrt (Qnum q * Zpos (Qden q)) # Qden q.

End Shapely.

(** ** [src/geometry.py] *)

Module Geometry.
Import Py Shapely.

(** [to_single_line(geom)]. *)
Definition to_single_line (geom : geometry) : result LineString :=
  match geom with
  | GLineString coords => Ok coords
  | GMultiLineString geoms =>
      match linemerge geoms with
      | GLineString merged => Ok merged
      | _ => Ok (concat geoms)
      end
  | _ => Raise TypeError
  end.

(** [extract_single_line(gdf)], on the geometry column of the frame. *)
Definition extract_single_line (gdf : list geometry) : result LineString :=
  match gdf with
  | [] => Raise IndexError
  | geom :: _ => to_single_line geom
  end.

Section Planar.
Variable sqrt : Q -> Q.

(** [project_point_to_line(point, line)]. *)
Definition project_point_to_line (point : Point) (line : LineString)
  : Point * Q :=
  let dist_along := project sqrt line point in
  let projected := interpolate sqrt line dist_along in
  (projected, dist_along).

(** [perpendicular_distance(point, line)]. *)
Definition perpendicular_distance (point : Point) (line : LineString) : Q :=
  distance sqrt point line.

End Planar.

End Geometry.

(** ** [src/chainage.py]: the chainage codec *)

Module Chainage.
Import Py Shapely.

(** [format_chainage(distance_m)] with the default template. *)
Definition format_chainage (distance_m : Q) : string :=
  let '(km, rest) := divmod (round distance_m) 1000 in
  "K" ++ str km ++ "+" ++ format_0d 3 rest.

(** [parse_chainage(label)]: the [IndexError] and [ValueError] of the body
    are both re-raised as [ValueError]; the result is a float. *)
Definition parse_chainage (label : string) : result Q :=
  let parts := split "+" (remove_char "K" (upper label)) in
  let body :=
    bind (getitem parts 0) (fun p0 =>
    bind (int p0) (fun km =>
    bind (getitem parts 1) (fun p1 =>
    bind (int p1) (fun rest =>
    Ok (inject_Z (km * 1000 + rest)))))) in
  match body with
  | Ok d => Ok d
  | Raise _ => Raise ValueError
  end.

Section Planar.
Variable sqrt : Q -> Q.

(** [chainage(line, point)]. *)
Definition chainage (line : LineString) (point : Point) : Q * string :=
  let dist_m := project sqrt line point in
  let label := format_chainage dist_m in
  (dist_m, label).

Definition marker : Type := (Point * Q * string)%type.

(** The [while] loop of [generate_chainage_points]; [None] when it is
    still running after [fuel] tests of its condition. *)
Fixpoint generate_loop (fuel : nat) (line : LineString)
  (total_length interval_m distance : Q) (points : list marker)
  : option (list marker) :=
  match fuel with
  | O => None
  | S fuel' =>
      if Qle_bool distance total_length
      then
        let point := interpolate sqrt line distance in
        let label := format_chainage distance in
        generate_loop fuel' line total_length interval_m
          (distance + interval_m)%Q (points ++ [(point, distance, label)])
      else Some points
  end.

(** [generate_chainage_points(line, interval_m, start_m)]. *)
Definition generate_chainage_points (fuel : nat) (line : LineString)
  (interval_m start_m : Q) : option (list marker) :=
  let total_length := length sqrt line in
  generate_loop fuel line total_length interval_m start_m [].

End Planar.

(** The [crs] argument of [chainage_points_to_gdf]: an EPSG code or a
    string. *)
Inductive crs_arg : Type :=
| CrsInt (epsg : Z)
| CrsStr (s : string).

(** The frame of markers: the columns [abscisa_m], [abscisa_lbl] and
    [geometry], and the CRS string the frame is built with. *)
Record markers_gdf : Type := mkMarkersGdf {
  gdf_abscisa_m : list Q;
  gdf_abscisa_lbl : list string;
  gdf_geometry : list Point;
  gdf_crs : string
}.

(** [chainage_points_to_gdf(chainage_points, crs)]. *)
Definition chainage_points_to_gdf (chainage_points : list marker)
  (crs : crs_arg) : markers_gdf :=
  let crs_str :=
    match crs with
    | CrsInt n => "EPSG:" ++ str n
    | CrsStr s => s
    end in
  {| gdf_abscisa_m := map (fun p : marker => snd (fst p)) chainage_points;
     gdf_abscisa_lbl := map (fun p : marker => snd p) chainage_points;
     gdf_geometry := map (fun p : marker => fst (fst p)) chainage_points;
     gdf_crs := crs_str |}.

End Chainage.

(** ** [src/annotate.py] *)

Module Annotate.
Import Py Shapely Geometry Chainage.

(** A cell of an attribute column. *)
Inductive pyval : Type :=
| PyNone
| PyNaN
| PyStr (s : string)
| PyInt (z : Z)
| PyFloat (q : Q).

(** [pd.isna] on a scalar. *)
Definition isna (v : pyval) : bool :=
  match v with
  | PyNone | PyNaN => true
  | _ => false
  end.

(** A row of the input frame: its geometry and its attribute columns. *)
Record feature : Type := mkFeature {
  geometry : Point;
  attrs : list (string * pyval)
}.

(** [row.get(key, default)]. *)
Fixpoint get (columns : list (string * pyval)) (key : string) (default : pyval)
  : pyval :=
  match columns with
  | [] => default
  | (k, v) :: columns' => if String.eqb k key then v else get columns' key default
  end.

Record annotated : Type := mkAnnotated {
  nombre : pyval;
  dist_m : Q;
  abscisa_m : Q;
  abscisa_lbl : string;
  x : Q;
  y : Q;
  x_axis : Q;
  y_axis : Q;
  geometry_axis : Point
}.

(** A frame of annotated rows: each row under its index label. *)
Definition frame : Type := list (nat * annotated).

Definition index (df : frame) : list nat := map fst df.
Definition rows (df : frame) : list annotated := map snd df.

(** [reset_index(drop=True)], and the index a new frame gets. *)
Definition reset_index (df : frame) : frame :=
  combine (seq 0 (List.length df)) (rows df).

Section Planar.
Variable sqrt : Q -> Q.

(** The body of the loop of [annotate_to_axis]: one record. *)
Definition annotate_row (axis_line : LineString) (name_field : string)
  (row : feature) : annotated :=
  let point := geometry row in
  let '(point_on_axis, dist_along) := project_point_to_line sqrt point axis_line in
  let perp_dist := perpendicular_distance sqrt point axis_line in
  let '(dist_m, chainage_lbl) := chainage sqrt axis_line point_on_axis in
  let name := get (attrs row) name_field (PyStr "sin_nombre") in
  let name := if isna name then PyStr "sin_nombre" else name in
  {| nombre := name;
     dist_m := perp_dist;
     abscisa_m := dist_m;
     abscisa_lbl := chainage_lbl;
     x := fst point;
     y := snd point;
     x_axis := fst point_on_axis;
     y_axis := snd point_on_axis;
     geometry_axis := point_on_axis |}.

(** [annotate_to_axis(gdf_points, axis_line, name_field)].  A frame built
    from no records has no columns, and reading its [x] column raises. *)
Definition annotate_to_axis (gdf_points : list feature)
  (axis_line : LineString) (name_field : string) : result frame :=
  let records := map (annotate_row axis_line name_field) gdf_points in
  let df := combine (seq 0 (List.length records)) records in
  match df with
  | [] => Raise AttributeError
  | _ :: _ => Ok df
  end.

End Planar.

(** [filter_by_radius(gdf, radius_m)]. *)
Definition filter_by_radius (gdf : frame) (radius_m : Q) : frame :=
  filter (fun r => Qle_bool (dist_m (snd r)) radius_m) gdf.

Section Sorting.
(** [DataFrame.sort_values(by)] with its default [kind]: the library
    promises the rows in ascending order of the column and nothing about
    rows that compare equal, so the routine is left open. *)
Variable sort_values : (annotated -> Q) -> frame -> frame.

(** [sort_by_chainage(gdf)] with the default column. *)
Definition sort_by_chainage (gdf : frame) : frame :=
  reset_index (sort_values abscisa_m gdf).

End Sorting.

End Annotate.

(** ** [src/outputs_tables.py]: the table of chainage points *)

Module OutputsTables.
Import Py Shapely Chainage.

(** A row of the table: the keys of the record dictionary. *)
Record table_row : Type := mkTableRow {
  abscisa : string;
  distancia_m : Q;
  x : Q;
  y : Q;
  crs : string
}.

(** [create_chainage_table(chainage_points, crs_epsg)]: the frame of the
    records, one per marker. *)
Definition create_chainage_table (chainage_points : list marker)
  (crs_epsg : Z) : list table_row :=
  map (fun p : marker =>
         let '(point, dist_m, label) := p in
         {| abscisa := label;
            distancia_m := dist_m;
            x := fst point;
            y := snd point;
            crs := "EPSG:" ++ str crs_epsg |})
      chainage_points.

End OutputsTables.

(** ** [src/crs.py] *)

Module Crs.
Import Py.

(** A frame as the CRS functions see it: its CRS, here the EPSG code
    [gdf.crs.to_epsg()] gives, or none, and its geometries. *)
Record GeoDataFrame (A : Type) : Type := mkGdf {
  crs : option Z;
  geoms : A
}.
Arguments mkGdf {A} crs geoms.
Arguments crs {A} g.
Arguments geoms {A} g.

Section Frames.
Variable A : Type.
(** The coordinate transformation of the projection library, from one EPSG
    code to another, and its test for a projected CRS. *)
Variable transform : Z -> Z -> A -> A.
Variable is_projected : Z -> bool.

(** [gdf.set_crs(epsg)] on a frame without CRS: the CRS is declared, the
    coordinates stay. *)
Definition set_crs (epsg : Z) (gdf : GeoDataFrame A) : GeoDataFrame A :=
  mkGdf (Some epsg) (geoms gdf).

(** [gdf.to_crs(epsg=...)]: a frame without CRS cannot be transformed. *)
Definition to_crs (epsg : Z) (gdf : GeoDataFrame A)
  : result (GeoDataFrame A) :=
  match crs gdf with
  | None => Raise ValueError
  | Some current => Ok (mkGdf (Some epsg) (transform current epsg (geoms gdf)))
  end.

(** [ensure_crs(gdf, target_epsg, assume_input_epsg)]. *)
Definition ensure_crs (gdf : GeoDataFrame A) (target_epsg assume_input_epsg : Z)
  : result (GeoDataFrame A) :=
  let gdf :=
    match crs gdf with
    | None => set_crs assume_input_epsg gdf
    | Some _ => gdf
    end in
  match crs gdf with
  | None => Raise AttributeError
  | Some current_epsg =>
      if negb (current_epsg =? target_epsg) then to_crs target_epsg gdf
      else Ok gdf
  end.

(** [reproject(gdf, target_epsg)]. *)
Definition reproject (gdf : GeoDataFrame A) (target_epsg : Z)
  : result (GeoDataFrame A) :=
  match crs gdf with
  | None => Raise ValueError
  | Some _ => to_crs target_epsg gdf
  end.

(** [validate_projected_crs(gdf)]. *)
Definition validate_projected_crs (gdf : GeoDataFrame A) : bool :=
  match crs gdf with
  | None => false
  | Some c => is_projected c
  end.

End Frames.

(** The dictionary [get_crs_info] returns. *)
Record crs_info : Type := mkCrsInfo {
  info_epsg : Z;
  info_name : string;
  info_units : string
}.

Definition crs_data : list (Z * (string * string)) :=
  [(4326, ("WGS84 (GPS)", "degrees"));
   (9377, ("MAGNA-SIRGAS Colombia", "meters"));
   (32618, ("UTM Zone 18N", "meters"));
   (3857, ("Web Mercator", "meters"))].

(** [d.get(key, default)] on a dictionary with integer keys. *)
Fixpoint dict_get {V} (d : list (Z * V)) (key : Z) (default : V) : V :=
  match d with
  | [] => default
  | (k, v) :: d' => if k =? key then v else dict_get d' key default
  end.

(** [get_crs_info(epsg)]. *)
Definition get_crs_info (epsg : Z) : crs_info :=
  let '(name, units) := dict_get crs_data epsg ("EPSG:" ++ str epsg, "unknown") in
  {| info_epsg := epsg; info_name := name; info_units := units |}.

End Crs.

(** ** [src/geology.py]: unique borehole identifiers *)

Module Geology.
Import Py.

(** A cell of the identifier column. *)
Inductive id_value : Type :=
| IdStr (s : string)
| IdInt (z : Z)
| IdNone
| IdNaN.

(** [str(v)] of a cell. *)
Definition str_of (v : id_value) : string :=
  match v with
  | IdStr s => s
  | IdInt z => str z
  | IdNone => "None"
  | IdNaN => "nan"
  end.

(** One cell of [df[id_col] == marker], as [astype(int)] gives it. *)
Definition group_start_of (marker : string) (v : id_value) : Z :=
  match v with
  | IdStr s => if String.eqb s marker then 1 else 0
  | _ => 0
  end.

(** [cumsum()] of a column, from the running total [acc]. *)
Fixpoint cumsum (acc : Z) (col : list Z) : list Z :=
  match col with
  | [] => []
  | v :: col' => (acc + v) :: cumsum (acc + v) col'
  end.

(** [filter(str.isdigit, s)] joined again. *)
Fixpoint digits_only (s : string) : string :=
  match s with
  | EmptyString => EmptyString
  | String c s' => if is_digit c then String c (digits_only s') else digits_only s'
  end.

(** The dictionary [grupo_counts]: keys in order of insertion. *)
Definition dict : Type := list (Z * Z).

Fixpoint contains (d : dict) (key : Z) : bool :=
  match d with
  | [] => false
  | (k, _) :: d' => (k =? key) || contains d' key
  end.

(** [d[key]]: a [KeyError] for a missing key. *)
Fixpoint getitem_key (d : dict) (key : Z) : result Z :=
  match d with
  | [] => Raise KeyError
  | (k, v) :: d' => if k =? key then Ok v else getitem_key d' key
  end.

(** [d[key] = value]. *)
Fixpoint setitem (d : dict) (key value : Z) : dict :=
  match d with
  | [] => [(key, value)]
  | (k, v) :: d' =>
      if k =? key then (k, value) :: d' else (k, v) :: setitem d' key value
  end.

(** [sum(d.values())]. *)
Definition sum_values (d : dict) : Z :=
  fold_right (fun kv acc => snd kv + acc) 0 d.

(** A row of the result: the identifier and the three added columns. *)
Record id_row : Type := mkIdRow {
  id : id_value;
  group_start : Z;
  grupo : Z;
  id_unico : string
}.

(** The body of the loop over the rows, on the state [grupo_counts],
    [unique_ids]. *)
Definition assign_step (st : dict * list string) (row : id_value * Z)
  : result (dict * list string) :=
  let '(grupo_counts, unique_ids) := st in
  let grupo := snd row in
  let grupo_counts :=
    if negb (contains grupo_counts grupo) then setitem grupo_counts grupo 0
    else grupo_counts in
  bind (getitem_key grupo_counts grupo) (fun count =>
  let grupo_counts := setitem grupo_counts grupo (count + 1) in
  bind (match int (digits_only (str_of (fst row))) with
        | Ok num => Ok num
        | Raise ValueError => getitem_key grupo_counts grupo
        | Raise e => Raise e
        end) (fun num =>
  Ok (grupo_counts,
      (unique_ids ++ [("S" ++ str (sum_values grupo_counts))%string])%list))).

Fixpoint assign_loop (st : dict * list string) (rows : list (id_value * Z))
  : result (dict * list string) :=
  match rows with
  | [] => Ok st
  | row :: rows' => bind (assign_step st row) (fun st' => assign_loop st' rows')
  end.

(** [assign_unique_ids(df, id_col, marker)], on the identifier column of
    the frame. *)
Definition assign_unique_ids (ids : list id_value) (marker : string)
  : result (list id_row) :=
  let group_starts := map (group_start_of marker) ids in
  let grupos := cumsum 0 group_starts in
  bind (assign_loop ([], []) (combine ids grupos)) (fun st =>
  let unique_ids := snd st in
  Ok (map (fun r : id_value * Z * Z * string =>
             let '(v, gs, g, u) := r in
             {| id := v; group_start := gs; grupo := g; id_unico := u |})
          (combine (combine (combine ids group_starts) grupos) unique_ids))).

End Geology.

(** ** [src/outputs_maps.py]: degrees, minutes, seconds *)

Module OutputsMaps.
Import Py.
Local Open Scope Q_scope.

(** [int(x)] of a float: the fraction is cut off, towards zero. *)
Definition trunc (x : Q) : Z :=
  if Qle_bool 0 x then Qfloor x else Qceiling x.

(** [deg_to_dms(deg)]. *)
Definition deg_to_dms (deg : Q) : Z * Z * Q :=
  let d := trunc deg in
  let md := Qabs (deg - inject_Z d) * 60 in
  let m := trunc md in
  let sd := (md - inject_Z m) * 60 in
  (d, m, sd).

(** The degree sign, U+00B0, and the double quote of the labels. *)
Definition degree_sign : string := String (ascii_of_nat 176) EmptyString.
Definition double_quote : string := String (ascii_of_nat 34) EmptyString.

(** [lat_formatter(lat)]. *)
Definition lat_formatter (lat : Q) : string :=
  let '(d, m, s) := deg_to_dms lat in
  (str (Z.abs d) ++ degree_sign ++ str m ++ "'" ++ str (trunc s)
   ++ double_quote ++ (if Qle_bool 0 lat then "N" else "S"))%string.

(** [lon_formatter(lon)]. *)
Definition lon_formatter (lon : Q) : string :=
  let '(d, m, s) := deg_to_dms lon in
  (str (Z.abs d) ++ degree_sign ++ str m ++ "'" ++ str (trunc s)
   ++ double_quote ++ (if Qle_bool 0 lon then "E" else "W"))%string.

End OutputsMaps.

(** * Vocabulary of the properties *)

Import Py Shapely Geometry Chainage Annotate.

Local Open Scope Q_scope.

Fixpoint all_digits (s : string) : bool :=
  match s with
  | EmptyString => true
  | String c s' => is_digit c && all_digits s'
  end.

Definition result_is (r : result Z) (z : Z) : bool :=
  match r with
  | Ok z' => z' =? z
  | Raise _ => false
  end.

(** What the codec needs of a zero-padded remainder. *)
Definition rest_ok (r : Z) : bool :=
  all_digits (format_0d 3 r)
  && result_is (int (format_0d 3 r)) r
  && (String.length (format_0d 3 r) =? 3)%nat.

(** The distances the loop visits: [n] of them from [start], each obtained
    from the one before by adding the interval. *)
Fixpoint dist_seq (start interval : Q) (n : nat) : list Q :=
  match n with
  | O => []
  | S n' => start :: dist_seq (start + interval) interval n'
  end.

(** The marker the loop body appends at a distance. *)
Definition marker_at (sqrt : Q -> Q) (line : LineString) (d : Q) : marker :=
  (interpolate sqrt line d, d, format_chainage d).

(** How many markers fit: the [k] with [start + k * interval <= total]. *)
Definition marker_count (total interval start : Q) : nat :=
  if Qle_bool start total
  then S (Z.to_nat (Qfloor ((total - start) / interval)))
  else O.

Definition qn (k : nat) : Q := inject_Z (Z.of_nat k).

(** The 10 km horizontal axis of the test suite. *)
Definition simple_axis : LineString := [(0, 0); (10000, 0)].

(** Part [q] starts where part [p] ends. *)
Definition touches (p q : LineString) : bool :=
  match q with
  | v :: _ => point_eqb (last p v) v
  | [] => false
  end.

(** The parts chain end-to-end in the given order. *)
Fixpoint chained (first : LineString) (rest : list LineString) : bool :=
  match rest with
  | [] => true
  | q :: rest' => touches first q && chained q rest'
  end.

(** A line has at least two vertices. *)
Definition valid_line (l : LineString) : Prop := (2 <= List.length l)%nat.

(** The value of a column in a row, when the frame has the column. *)
Fixpoint lookup (columns : list (string * pyval)) (key : string)
  : option pyval :=
  match columns with
  | [] => None
  | (k, v) :: columns' => if String.eqb k key then Some v else lookup columns' key
  end.

Definition names (df : frame) : list pyval := map nombre (rows df).

(** The frame of the records of the features, under the index 0, 1, ... *)
Definition records_frame (sqrt : Q -> Q) (gdf : list feature)
  (axis : LineString) (name_field : string) : frame :=
  let records := map (annotate_row sqrt axis name_field) gdf in
  combine (seq 0 (List.length records)) records.

Definition key_le (key : annotated -> Q) (r1 r2 : nat * annotated) : Prop :=
  key (snd r1) <= key (snd r2).

(** What [sort_values] promises: the same rows, in ascending order of the
    column. *)
Definition sorting_routine
  (sort_values : (annotated -> Q) -> frame -> frame) : Prop :=
  forall key df,
    Permutation df (sort_values key df)
    /\ Sorted (key_le key) (sort_values key df).

(** No two different rows have the same value in the column. *)
Definition distinct_keys (key : annotated -> Q) (df : frame) : Prop :=
  forall r1 r2, In r1 df -> In r2 df -> key (snd r1) == key (snd r2) -> r1 = r2.

(** The rows at chainage [c], in their order. *)
Definition ties_of (c : Q) (l : list annotated) : list annotated :=
  filter (fun r => Qeq_bool (abscisa_m r) c) l.

(** Sorting by insertion, the last row first; [before kr kh] tells whether
    a row with key [kr] goes in front of one with key [kh]. *)
Section Insertion.

Variable key : annotated -> Q.
Variable before : Q -> Q -> bool.

Fixpoint insert (r : nat * annotated) (l : frame) : frame :=
  match l with
  | [] => [r]
  | h :: t =>
      if before (key (snd r)) (key (snd h)) then r :: l else h :: insert r t
  end.

Definition insertion_sort (df : frame) : frame := fold_right insert [] df.

End Insertion.

(** Two sorting routines: a stable one (what [kind="stable"] would give),
    and one that puts rows of equal key in the reverse of their order. *)
Definition sort_stable (key : annotated -> Q) : frame -> frame :=
  insertion_sort key Qle_bool.

Definition sort_ties_reversed (key : annotated -> Q) : frame -> frame :=
  insertion_sort key (fun kr kh => negb (Qle_bool kh kr)).

(** Three features at chainages 8000, 2000, 5000, and two at 5000. *)
Definition three_features : list feature :=
  [mkFeature (8000, 0) [("Name", PyStr "Last")];
   mkFeature (2000, 0) [("Name", PyStr "First")];
   mkFeature (5000, 0) [("Name", PyStr "Middle")]].

Definition tied_features : list feature :=
  [mkFeature (5000, 100) [("Name", PyStr "A")];
   mkFeature (5000, - (200)) [("Name", PyStr "B")]].

(** ** Vocabulary of the further properties *)

Fixpoint all_chars (p : ascii -> bool) (s : string) : bool :=
  match s with
  | EmptyString => true
  | String c s' => p c && all_chars p s'
  end.

(** The characters of a printed integer. *)
Definition numeral_char (c : ascii) : bool := is_digit c || Ascii.eqb c "-".

(** [c in s] for a one-character [c]. *)
Fixpoint has_char (c : ascii) (s : string) : bool :=
  match s with
  | EmptyString => false
  | String a s' => Ascii.eqb a c || has_char c s'
  end.

(** No two different records have the same chainage. *)
Definition distinct_chainages (l : list annotated) : Prop :=
  forall r1 r2, In r1 l -> In r2 l -> abscisa_m r1 == abscisa_m r2 -> r1 = r2.

(** The identifier is the marker of a new group. *)
Definition is_marker (marker : string) (v : Geology.id_value) : bool :=
  match v with
  | Geology.IdStr s => String.eqb s marker
  | _ => false
  end.

(** How many identifiers of a list are the marker. *)
Definition hits (marker : string) (l : list Geology.id_value) : Z :=
  Z.of_nat (List.length (filter (is_marker marker) l)).

(** * Properties *)

(** ** String helpers *)

Lemma is_digit_upper c : is_digit c = true -> upper_char c = c.
Proof.
  destruct c as [[] [] [] [] [] [] [] []]; vm_compute; congruence.
Qed.

Lemma is_digit_not c x :
  is_digit x = false -> is_digit c = true -> Ascii.eqb c x = false.
Proof.
  intros Hx Hc. destruct (Ascii.eqb_spec c x) as [->|]; congruence.
Qed.

Lemma is_digit_not_space c : is_digit c = true -> is_space c = false.
Proof.
  destruct c as [[] [] [] [] [] [] [] []]; vm_compute; congruence.
Qed.

Lemma upper_app a b : upper (a ++ b) = upper a ++ upper b.
Proof. induction a as [|c a IH]; simpl; [reflexivity | now rewrite IH]. Qed.

Lemma remove_char_app c a b :
  remove_char c (a ++ b) = remove_char c a ++ remove_char c b.
Proof.
  induction a as [|x a IH]; simpl; [reflexivity|].
  destruct (Ascii.eqb x c); simpl; now rewrite IH.
Qed.

Lemma upper_digits s : all_digits s = true -> upper s = s.
Proof.
  induction s as [|c s IH]; simpl; [reflexivity|].
  intros [Hc Hs]%andb_prop. now rewrite is_digit_upper, IH.
Qed.

Lemma remove_char_digits x s :
  is_digit x = false -> all_digits s = true -> remove_char x s = s.
Proof.
  intros Hx. induction s as [|c s IH]; simpl; [reflexivity|].
  intros [Hc Hs]%andb_prop. now rewrite (is_digit_not c x), IH.
Qed.

Lemma split_digits x s :
  is_digit x = false -> all_digits s = true -> split x s = [s].
Proof.
  intros Hx. induction s as [|c s IH]; simpl; [reflexivity|].
  intros [Hc Hs]%andb_prop. now rewrite (is_digit_not c x), IH.
Qed.

Lemma split_digits_app x a b :
  is_digit x = false -> all_digits a = true ->
  split x (a ++ String x b) = a :: split x b.
Proof.
  intros Hx. induction a as [|c a IH]; simpl.
  - now rewrite Ascii.eqb_refl.
  - intros [Hc Ha]%andb_prop. now rewrite (is_digit_not c x), IH.
Qed.

Lemma lstrip_digits s : all_digits s = true -> lstrip s = s.
Proof.
  destruct s as [|c s]; simpl; [reflexivity|].
  intros [Hc _]%andb_prop. now rewrite is_digit_not_space.
Qed.

Lemma rstrip_digits s : all_digits s = true -> rstrip s = s.
Proof.
  induction s as [|c s IH]; simpl; [reflexivity|].
  intros [Hc Hs]%andb_prop. rewrite IH by assumption.
  destruct s; [now rewrite is_digit_not_space | reflexivity].
Qed.

Lemma strip_digits s : all_digits s = true -> strip s = s.
Proof.
  intros H. unfold strip. now rewrite rstrip_digits, lstrip_digits.
Qed.

(** ** Decimal numerals *)

Lemma all_digits_uint u : all_digits (NilEmpty.string_of_uint u) = true.
Proof. induction u; simpl; auto. Qed.

Lemma literal_digits_uint u :
  literal_digits true (NilEmpty.string_of_uint u) = Some u.
Proof. induction u; simpl; try reflexivity; now rewrite IHu. Qed.

Lemma literal_digits_uint_first u :
  u <> Decimal.Nil ->
  literal_digits false (NilEmpty.string_of_uint u) = Some u.
Proof.
  destruct u; simpl; try congruence; intros _;
    now rewrite literal_digits_uint.
Qed.

Lemma int_uint u :
  u <> Decimal.Nil ->
  int (NilEmpty.string_of_uint u) = Ok (Z.of_uint u).
Proof.
  intros Hu. unfold int.
  rewrite strip_digits by apply all_digits_uint.
  destruct u; try congruence; simpl; now rewrite literal_digits_uint.
Qed.

(** [str] of a natural number is a numeral and [int] reads it back. *)
Lemma str_nonneg n :
  (0 <= n)%Z -> all_digits (str n) = true /\ int (str n) = Ok n.
Proof.
  intros Hn. unfold str.
  assert (exists u, Z.to_int n = Decimal.Pos u /\ u <> Decimal.Nil) as (u & Hu & Hnil).
  { destruct n as [|p|p]; simpl.
    - exists Decimal.zero. split; [reflexivity | discriminate].
    - exists (Pos.to_uint p). split; [reflexivity|].
      apply DecimalPos.Unsigned.to_uint_nonnil.
    - lia. }
  rewrite Hu. simpl NilZero.string_of_int.
  assert (NilZero.string_of_uint u = NilEmpty.string_of_uint u) as ->
    by (destruct u; [congruence | reflexivity ..]).
  split; [apply all_digits_uint|].
  rewrite int_uint by assumption. f_equal.
  rewrite <- (DecimalZ.of_to n), Hu. reflexivity.
Qed.

Lemma rest_ok_1000 : forallb rest_ok (map Z.of_nat (seq 0 1000)) = true.
Proof. vm_compute. reflexivity. Qed.

Lemma rest_ok_range r : (0 <= r < 1000)%Z -> rest_ok r = true.
Proof.
  intros Hr. pose proof rest_ok_1000 as H.
  rewrite forallb_forall in H. apply H.
  apply in_map_iff. exists (Z.to_nat r). split; [lia|].
  apply in_seq. lia.
Qed.

Lemma format_0d_3 r :
  (0 <= r < 1000)%Z ->
  all_digits (format_0d 3 r) = true
  /\ int (format_0d 3 r) = Ok r
  /\ String.length (format_0d 3 r) = 3%nat.
Proof.
  intros Hr. pose proof (rest_ok_range r Hr) as H. unfold rest_ok in H.
  apply andb_prop in H as [[Hd Hi]%andb_prop Hl]. repeat split.
  - exact Hd.
  - unfold result_is in Hi. destruct (int (format_0d 3 r)); [|discriminate].
    f_equal. now apply Z.eqb_eq.
  - now apply Nat.eqb_eq.
Qed.

(** ** Rounding *)

Lemma round_floor_cases x :
  (x - inject_Z (Qfloor x) < 1 # 2 /\ round x = Qfloor x)
  \/ (1 # 2 < x - inject_Z (Qfloor x) /\ round x = (Qfloor x + 1)%Z)
  \/ (x - inject_Z (Qfloor x) == 1 # 2
      /\ round x = (if Z.even (Qfloor x) then Qfloor x else Qfloor x + 1)%Z).
Proof.
  unfold round.
  destruct (Qcompare_spec (x - inject_Z (Qfloor x)) (1 # 2)); auto.
Qed.

Lemma floor_bounds x : inject_Z (Qfloor x) <= x /\ x < inject_Z (Qfloor x) + 1.
Proof.
  split; [apply Qfloor_le|].
  pose proof (Qlt_floor x) as H. now rewrite inject_Z_plus in H.
Qed.

Lemma round_compat x y : x == y -> round x = round y.
Proof.
  intros E. unfold round. rewrite (Qfloor_comp _ _ E).
  assert ((x - inject_Z (Qfloor y) ?= 1 # 2) = (y - inject_Z (Qfloor y) ?= 1 # 2))
    as -> by (now rewrite E).
  reflexivity.
Qed.

(** [round] gives a nearest integer. *)
Lemma round_nearest x : Qabs (x - inject_Z (round x)) <= 1 # 2.
Proof.
  apply Qabs_Qle_condition.
  destruct (floor_bounds x) as [Hlo Hhi].
  destruct (round_floor_cases x) as [[H ->]|[[H ->]|[H ->]]].
  - split; lra.
  - rewrite inject_Z_plus. change (inject_Z 1) with 1. split; lra.
  - destruct (Z.even (Qfloor x)).
    + split; lra.
    + rewrite inject_Z_plus. change (inject_Z 1) with 1. split; lra.
Qed.

Lemma round_nonneg x : 0 <= x -> (0 <= round x)%Z.
Proof.
  intros Hx. pose proof (Qfloor_resp_le _ _ Hx) as H0.
  change (Qfloor 0) with 0%Z in H0.
  destruct (round_floor_cases x) as [[_ ->]|[[_ ->]|[_ ->]]];
    try destruct (Z.even _); lia.
Qed.

(** Below a half under zero the rounded value is negative. *)
Lemma round_negative x : x < - (1 # 2) -> (round x < 0)%Z.
Proof.
  intros Hx. pose proof (round_nearest x) as H.
  apply Qabs_Qle_condition in H as [H _].
  assert (inject_Z (round x) < 0) as H0 by lra.
  change 0 with (inject_Z 0) in H0. now rewrite <- Zlt_Qlt in H0.
Qed.

(** A tie goes to the even neighbour. *)
Lemma round_tie n :
  round (inject_Z n + (1 # 2)) = (if Z.even n then n else n + 1)%Z.
Proof.
  assert (Qfloor (inject_Z n + (1 # 2)) = n) as Hf.
  { pose proof (floor_bounds (inject_Z n + (1 # 2))) as [Hlo Hhi].
    set (f := Qfloor _) in *.
    assert (inject_Z f < inject_Z n + 1) as H1 by lra.
    assert (inject_Z n < inject_Z f + 1) as H2 by lra.
    change 1 with (inject_Z 1) in H1, H2. rewrite <- inject_Z_plus in H1, H2.
    rewrite <- Zlt_Qlt in H1, H2. lia. }
  destruct (round_floor_cases (inject_Z n + (1 # 2))) as [[H E]|[[H E]|[H E]]];
    rewrite Hf in *; try lra. exact E.
Qed.

(** ** The chainage codec *)

Lemma format_chainage_compat d d' :
  d == d' -> format_chainage d = format_chainage d'.
Proof. intros E. unfold format_chainage. now rewrite (round_compat _ _ E). Qed.

Lemma format_chainage_eq d :
  format_chainage d
  = String "K" (str (round d / 1000)
                ++ String "+" (format_0d 3 (round d mod 1000))).
Proof. reflexivity. Qed.

Lemma parse_two_numerals a b km rest :
  all_digits a = true -> all_digits b = true ->
  int a = Ok km -> int b = Ok rest ->
  parse_chainage (String "K" (a ++ String "+" b))
  = Ok (inject_Z (km * 1000 + rest)%Z).
Proof.
  intros Ha Hb Ia Ib. unfold parse_chainage.
  assert (upper (String "K" (a ++ String "+" b)) = String "K" (a ++ String "+" b))
    as ->.
  { simpl. rewrite upper_app. simpl. now rewrite !upper_digits. }
  assert (remove_char "K" (String "K" (a ++ String "+" b)) = a ++ String "+" b)
    as ->.
  { simpl. rewrite remove_char_app. simpl.
    now rewrite !remove_char_digits. }
  rewrite split_digits_app, split_digits by easy.
  simpl. now rewrite Ia, Ib.
Qed.

(** C1: [format_chainage] rounds with Python's [round], which sends a tie to
    the even neighbour and not away from zero: the label is
    [K{km}+{rest:03d}] of the rounded value, 5250.49 gives K5+250, and
    5250.5 gives K5+250 where the specification and the test suite expect
    K5+251. *)
Theorem format_chainage_tie_to_even :
  format_chainage 5250.5 = "K5+250"
  /\ format_chainage 5250.49 = "K5+250"
  /\ round 5250.5 = 5250%Z
  /\ (forall n : Z,
        round (inject_Z n + (1 # 2)) = if Z.even n then n else (n + 1)%Z)
  /\ (forall d,
        format_chainage d
        = "K" ++ str (round d / 1000) ++ "+" ++ format_0d 3 (round d mod 1000)).
Proof.
  repeat split; try reflexivity.
  intros n. apply round_tie.
Qed.

(** C3: [parse_chainage] does not require the K prefix nor exactly two
    parts: "5+250" parses to 5250 and "K1+2+3" to 1002 (the third part is
    ignored), where the specification wants both rejected and the test suite
    the first; a label without the separator, or with a part that is not a
    number, is rejected. *)
Theorem parse_chainage_accepts_malformed :
  parse_chainage "5+250" = Ok 5250
  /\ parse_chainage "K1+2+3" = Ok 1002
  /\ parse_chainage "K5" = Raise ValueError
  /\ parse_chainage "invalid" = Raise ValueError
  /\ parse_chainage "Kx+250" = Raise ValueError.
Proof. repeat split; reflexivity. Qed.



(** C10: a negative distance is formatted like any other, neither rejected
    nor clamped: with [n = round(d)], [q = n // 1000] (floored, so
    [q * 1000 <= n < (q + 1) * 1000]) and [r = n % 1000] in [[0, 1000)], the
    label is [K{q}+{r:03d}] with a three-digit [r]; below minus a half [q]
    is negative and printed with its sign; -1 gives K-1+999. *)
Theorem format_chainage_negative d :
  d < 0 ->
  let n := round d in
  let q := (n / 1000)%Z in
  let r := (n mod 1000)%Z in
  format_chainage d = "K" ++ str q ++ "+" ++ format_0d 3 r
  /\ (q * 1000 <= n < (q + 1) * 1000)%Z
  /\ (0 <= r < 1000)%Z
  /\ String.length (format_0d 3 r) = 3%nat
  /\ (d < - (1 # 2) -> (q < 0)%Z /\ exists digits, str q = String "-" digits)
  /\ format_chainage (-1) = "K-1+999".
Proof.
  intros Hd n q r.
  assert (0 <= r < 1000)%Z as Hr by (apply Z.mod_pos_bound; lia).
  split; [reflexivity|]. split.
  { pose proof (Z.div_mod n 1000 ltac:(lia)) as E. fold q r in E. lia. }
  split; [exact Hr|]. split; [now apply format_0d_3|].
  split; [|reflexivity].
  intros Hneg. pose proof (round_negative d Hneg) as Hn. fold n in Hn.
  assert (q < 0)%Z as Hq by (apply Z.div_lt_upper_bound; lia).
  split; [exact Hq|].
  destruct q as [|p|p]; try lia.
  eexists. reflexivity.
Qed.

Lemma format_chainage_negative_witness :
  - (1500.5) < 0
  /\ format_chainage (- (1500.5)) = "K-2+500"
  /\ format_chainage (-1) = "K-1+999".
Proof.
  assert (- (1500.5) < 0) as H by lra.
  pose proof (format_chainage_negative (- (1500.5)) H) as T.
  split; [exact H|]. split; [|apply T].
  destruct T as [T _]. exact T.
Defined.

(** ** Marker generation *)

Lemma qn_S k : qn (S k) == qn k + 1.
Proof.
  unfold qn. rewrite Nat2Z.inj_succ, <- Z.add_1_r, inject_Z_plus. reflexivity.
Qed.

Lemma qn_0 : qn 0 == 0.
Proof. reflexivity. Qed.

Lemma qn_le j k : (j <= k)%nat -> qn j <= qn k.
Proof. intros H. unfold qn. rewrite <- Zle_Qle. lia. Qed.

Lemma Qle_bool_false x y : Qle_bool x y = false <-> ~ x <= y.
Proof.
  rewrite <- Qle_bool_iff. destruct (Qle_bool x y); split; congruence.
Qed.

Lemma dist_seq_length start i n : List.length (dist_seq start i n) = n.
Proof. revert start. induction n; intros; simpl; auto. Qed.

Lemma dist_seq_nth start i n k :
  (k < n)%nat -> nth k (dist_seq start i n) 0 == start + qn k * i.
Proof.
  revert start k. induction n as [|n IH]; intros start k Hk; [lia|].
  destruct k as [|k]; simpl.
  - rewrite qn_0. ring.
  - rewrite IH by lia. rewrite qn_S. ring.
Qed.

Lemma generate_loop_emits sqrt line total i n :
  forall fuel d points,
  (n < fuel)%nat ->
  (forall k, (k < n)%nat -> d + qn k * i <= total) ->
  ~ d + qn n * i <= total ->
  generate_loop sqrt fuel line total i d points
  = Some (points ++ map (marker_at sqrt line) (dist_seq d i n))%list.
Proof.
  induction n as [|n IH]; intros fuel d points Hfuel Hin Hout;
    (destruct fuel as [|fuel]; [lia|]); simpl.
  - assert (Qle_bool d total = false) as ->.
    { apply Qle_bool_false. intros H. apply Hout. rewrite qn_0. lra. }
    now rewrite app_nil_r.
  - assert (Qle_bool d total = true) as ->.
    { apply Qle_bool_iff. specialize (Hin 0%nat ltac:(lia)).
      rewrite qn_0 in Hin. lra. }
    rewrite IH.
    + now rewrite <- app_assoc.
    + lia.
    + intros k Hk. specialize (Hin (S k) ltac:(lia)).
      rewrite qn_S in Hin. lra.
    + intros H. apply Hout. rewrite qn_S. lra.
Qed.

(** With an interval that does not advance, a loop that is entered is never
    left. *)
Lemma generate_loop_diverges sqrt line total i :
  i <= 0 ->
  forall fuel d points,
  d <= total -> generate_loop sqrt fuel line total i d points = None.
Proof.
  intros Hi. induction fuel as [|fuel IH]; intros d points Hd; simpl.
  - reflexivity.
  - assert (Qle_bool d total = true) as -> by now apply Qle_bool_iff.
    apply IH. lra.
Qed.

Lemma marker_count_inside total i start k :
  0 < i -> (k < marker_count total i start)%nat -> start + qn k * i <= total.
Proof.
  intros Hi. unfold marker_count.
  destruct (Qle_bool start total) eqn:E; [|lia].
  apply Qle_bool_iff in E. intros Hk.
  set (x := (total - start) / i) in *.
  assert (0 <= x) as Hx0.
  { unfold x. apply Qle_shift_div_l; [exact Hi | lra]. }
  assert (0 <= Qfloor x)%Z as Hf0.
  { change 0%Z with (Qfloor 0). now apply Qfloor_resp_le. }
  assert (qn k <= x) as Hkx.
  { apply Qle_trans with (inject_Z (Qfloor x)); [|apply Qfloor_le].
    unfold qn. rewrite <- Zle_Qle. lia. }
  assert (x * i == total - start) as Hxi.
  { unfold x. field. lra. }
  assert (qn k * i <= x * i) by (apply Qmult_le_compat_r; lra).
  lra.
Qed.

Lemma marker_count_outside total i start :
  0 < i -> ~ start + qn (marker_count total i start) * i <= total.
Proof.
  intros Hi. unfold marker_count.
  destruct (Qle_bool start total) eqn:E.
  - apply Qle_bool_iff in E.
    set (x := (total - start) / i) in *.
    assert (0 <= x) as Hx0.
    { unfold x. apply Qle_shift_div_l; [exact Hi | lra]. }
    assert (0 <= Qfloor x)%Z as Hf0.
    { change 0%Z with (Qfloor 0). now apply Qfloor_resp_le. }
    assert (x * i == total - start) as Hxi.
    { unfold x. field. lra. }
    assert (x < qn (S (Z.to_nat (Qfloor x)))) as Hlt.
    { unfold qn. rewrite Nat2Z.inj_succ, Z2Nat.id, <- Z.add_1_r by lia.
      apply Qlt_floor. }
    assert (x * i < qn (S (Z.to_nat (Qfloor x))) * i)
      by (apply Qmult_lt_compat_r; lra).
    lra.
  - apply Qle_bool_false in E. rewrite qn_0. lra.
Qed.






(** ** Planar projection *)

Lemma clamp_range lo hi t : lo <= hi -> lo <= clamp lo hi t <= hi.
Proof.
  intros H. unfold clamp.
  destruct (Qle_bool t lo) eqn:E1; [lra|].
  destruct (Qle_bool hi t) eqn:E2; [lra|].
  apply Qle_bool_false in E1, E2. lra.
Qed.

Lemma clamp_below lo hi t : t <= lo -> clamp lo hi t = lo.
Proof.
  intros H. unfold clamp. apply Qle_bool_iff in H. now rewrite H.
Qed.

Lemma clamp_above lo hi t : lo < hi -> hi <= t -> clamp lo hi t = hi.
Proof.
  intros Hlh H. unfold clamp.
  assert (Qle_bool t lo = false) as -> by (apply Qle_bool_false; lra).
  apply Qle_bool_iff in H. now rewrite H.
Qed.

Lemma scale_range t len : 0 <= t <= 1 -> 0 <= len -> 0 <= t * len <= len.
Proof. intros Ht Hl. split; nra. Qed.

Lemma sqrt_floor_nonneg x : 0 <= sqrt_floor x.
Proof.
  unfold sqrt_floor, Qle. simpl. pose proof (Z.sqrt_nonneg (Qnum x * Zpos (Qden x))).
  lia.
Qed.

Lemma sqrt_floor_square x : 0 <= x -> sqrt_floor (x * x) == x.
Proof.
  destruct x as [a b]. unfold Qle. simpl. intros Ha.
  unfold sqrt_floor, Qeq. simpl.
  replace (a * a * Zpos (b * b))%Z with ((a * Zpos b) * (a * Zpos b))%Z
    by (rewrite Pos2Z.inj_mul; ring).
  rewrite Z.sqrt_square by lia. rewrite Pos2Z.inj_mul. ring.
Qed.

Section Projection.
Variable sqrt : Q -> Q.
Hypothesis sqrt_nonneg : forall x, 0 <= sqrt x.

Lemma length_step a b tl :
  length sqrt (a :: b :: tl) = seg_length sqrt a b + length sqrt (b :: tl).
Proof. reflexivity. Qed.

Lemma sweep_step p a b tl start best :
  sweep sqrt p (a :: b :: tl) start best
  = let t := clamp 0 1 (projection_factor p a b) in
    let d2 := dist2 p (seg_point a b t) in
    let m := start + t * seg_length sqrt a b in
    sweep sqrt p (b :: tl) (start + seg_length sqrt a b)
      match best with
      | Some (bd2, _) => if Qle_bool bd2 d2 then best else Some (d2, m)
      | None => Some (d2, m)
      end.
Proof. reflexivity. Qed.

Lemma length_nonneg coords : 0 <= length sqrt coords.
Proof.
  induction coords as [|a tl IH]; [simpl; lra|].
  destruct tl as [|b tl]; [simpl; lra|].
  rewrite length_step. pose proof (sqrt_nonneg (dist2 b a)).
  unfold seg_length. lra.
Qed.

(** The sweep keeps the arc length of its best candidate between the
    start of the line and the end of the segments seen so far. *)
Lemma sweep_range p coords :
  forall start best d2 m,
  0 <= start ->
  (forall bd2 bm, best = Some (bd2, bm) -> 0 <= bm <= start) ->
  sweep sqrt p coords start best = Some (d2, m) ->
  0 <= m <= start + length sqrt coords.
Proof.
  induction coords as [|a tl IH]; intros start best d2 m H0 Hb E.
  - simpl in *. specialize (Hb _ _ E). lra.
  - destruct tl as [|b tl].
    + simpl in *. specialize (Hb _ _ E). lra.
    + rewrite sweep_step in E. cbv zeta in E. rewrite length_step.
      pose proof (sqrt_nonneg (dist2 b a)) as Hlen.
      fold (seg_length sqrt a b) in Hlen.
      pose proof (scale_range _ _
        (clamp_range 0 1 (projection_factor p a b) ltac:(lra)) Hlen) as Ht.
      apply IH in E; [lra | lra |].
      intros bd2 bm Hbest.
      destruct best as [[bd bm0]|].
      * destruct (Qle_bool bd _).
        -- specialize (Hb _ _ Hbest). lra.
        -- injection Hbest as _ <-. lra.
      * injection Hbest as _ <-. lra.
Qed.

Lemma project_range line p : 0 <= project sqrt line p <= length sqrt line.
Proof.
  unfold project. destruct (sweep sqrt p line 0 None) as [[d2 m]|] eqn:E.
  - apply sweep_range in E; [lra | lra | discriminate].
  - pose proof (length_nonneg line). lra.
Qed.

Lemma project_before_start p a b :
  projection_factor p a b <= 0 -> project sqrt [a; b] p == 0.
Proof.
  intros H. unfold project. simpl. rewrite (clamp_below _ _ _ H). ring.
Qed.

Lemma project_beyond_end p a b :
  1 <= projection_factor p a b ->
  project sqrt [a; b] p == length sqrt [a; b].
Proof.
  intros H. unfold project. simpl.
  rewrite (clamp_above 0 1 _ ltac:(lra) H). ring.
Qed.

End Projection.



(** ** Line normalisation *)

Lemma last_app_nonempty {A} (l vs : list A) d :
  vs <> [] -> last (l ++ vs) d = last vs d.
Proof.
  intros Hvs. induction l as [|a l IH]; [reflexivity|].
  simpl. rewrite IH. destruct (l ++ vs)%list eqn:E; [|reflexivity].
  apply app_eq_nil in E as [_ ->]. congruence.
Qed.

Lemma chain_parts_chained rest :
  forall path cur,
  path <> [] -> cur <> [] ->
  (forall d, last path d = last cur d) ->
  Forall valid_line rest ->
  chain_parts path rest
  = if chained cur rest
    then Some (path ++ concat (map (@tl Point) rest))%list
    else None.
Proof.
  induction rest as [|q rest IH]; intros path cur Hp Hc Hlast Hv; simpl.
  - now rewrite app_nil_r.
  - inversion Hv as [|? ? Hq Hrest]; subst.
    destruct q as [|v [|w vs]]; unfold valid_line in Hq; simpl in Hq; try lia.
    destruct path as [|p0 path]; [congruence|].
    unfold touches. rewrite <- Hlast.
    destruct (point_eqb (last (p0 :: path) v) v); [|reflexivity].
    cbn [andb]. rewrite (IH _ (v :: w :: vs)); try easy.
    + destruct (chained _ rest); [|reflexivity].
      cbn [tl]. now rewrite <- app_assoc.
    + intros d. rewrite last_app_nonempty by easy. reflexivity.
Qed.



(** ** Feature annotation *)

Lemma get_lookup columns key default :
  get columns key default
  = match lookup columns key with
    | Some v => v
    | None => default
    end.
Proof.
  induction columns as [|[k v] columns IH]; simpl; [reflexivity|].
  now destruct (String.eqb k key).
Qed.

Lemma combine_seq_nth {A} (l : list A) i a :
  forall start,
  nth_error l i = Some a ->
  nth_error (combine (seq start (List.length l)) l) i = Some ((start + i)%nat, a).
Proof.
  revert i. induction l as [|h l IH]; intros [|i] start H; simpl in *;
    try discriminate.
  - injection H as ->. now rewrite Nat.add_0_r.
  - rewrite (IH _ (S start) H). do 2 f_equal. lia.
Qed.

Lemma rows_combine_seq {A} (l : list A) start :
  map snd (combine (seq start (List.length l)) l) = l.
Proof.
  revert start. induction l as [|h l IH]; intros; simpl; [reflexivity|].
  now rewrite IH.
Qed.

Lemma index_combine_seq {A} (l : list A) start :
  map fst (combine (seq start (List.length l)) l) = seq start (List.length l).
Proof.
  revert start. induction l as [|h l IH]; intros; simpl; [reflexivity|].
  now rewrite IH.
Qed.

Lemma nombre_annotate_row sqrt axis name_field row :
  nombre (annotate_row sqrt axis name_field row)
  = let name := get (attrs row) name_field (PyStr "sin_nombre") in
    if isna name then PyStr "sin_nombre" else name.
Proof.
  unfold annotate_row.
  destruct (project_point_to_line sqrt (geometry row) axis) as [pa da].
  destruct (chainage sqrt axis pa) as [dm lbl]. reflexivity.
Qed.

(** A call that returns gives the frame of the records, one per feature. *)
Lemma annotate_to_axis_returns sqrt gdf axis name_field out :
  annotate_to_axis sqrt gdf axis name_field = Ok out ->
  out = records_frame sqrt gdf axis name_field.
Proof.
  unfold annotate_to_axis, records_frame. cbv zeta.
  destruct (combine _ _); [discriminate | now intros [= <-]].
Qed.

Lemma annotate_to_axis_nonempty sqrt row gdf axis name_field :
  annotate_to_axis sqrt (row :: gdf) axis name_field
  = Ok (records_frame sqrt (row :: gdf) axis name_field).
Proof. reflexivity. Qed.

Lemma names_records_frame sqrt gdf axis name_field :
  names (records_frame sqrt gdf axis name_field)
  = map (fun row => nombre (annotate_row sqrt axis name_field row)) gdf.
Proof.
  unfold names, rows, records_frame. cbv zeta.
  now rewrite rows_combine_seq, map_map.
Qed.

(** C8, as the code has it: in the frame [annotate_to_axis] returns, the
    record of the [i]-th feature is the [i]-th record, under index [i]; its
    name is "sin_nombre" when the frame has no name column or the name is
    null ([None] or NaN), and the source name as it is otherwise; it is
    never null.  Names [None, NaN, "Valid"] give
    ["sin_nombre", "sin_nombre", "Valid"]. *)
Theorem annotate_name_fallback sqrt gdf axis name_field out :
  annotate_to_axis sqrt gdf axis name_field = Ok out ->
  List.length out = List.length gdf
  /\ (forall i row,
        nth_error gdf i = Some row ->
        exists r,
          nth_error out i = Some (i, r)
          /\ (lookup (attrs row) name_field = None ->
              nombre r = PyStr "sin_nombre")
          /\ (forall v, lookup (attrs row) name_field = Some v ->
              nombre r = if isna v then PyStr "sin_nombre" else v)
          /\ isna (nombre r) = false)
  /\ (exists out3,
        annotate_to_axis sqrt
          [mkFeature (2000, 0) [("Name", PyNone)];
           mkFeature (5000, 0) [("Name", PyNaN)];
           mkFeature (8000, 0) [("Name", PyStr "Valid")]]
          axis "Name" = Ok out3
        /\ names out3 = [PyStr "sin_nombre"; PyStr "sin_nombre"; PyStr "Valid"]).
Proof.
  intros Hout. apply annotate_to_axis_returns in Hout as ->.
  unfold records_frame. cbv zeta. split.
  { rewrite length_combine, length_seq, length_map. lia. }
  split.
  - intros i row Hi.
    exists (annotate_row sqrt axis name_field row). split.
    { rewrite (combine_seq_nth _ i (annotate_row sqrt axis name_field row));
        [reflexivity | now apply map_nth_error]. }
    rewrite nombre_annotate_row, get_lookup. cbv zeta.
    destruct (lookup (attrs row) name_field) as [v|].
    + split; [discriminate|]. split.
      * intros ? [= <-]. reflexivity.
      * destruct (isna v) eqn:E; [reflexivity | exact E].
    + split; [reflexivity|]. split; [discriminate | reflexivity].
  - eexists. split; [apply annotate_to_axis_nonempty|].
    rewrite names_records_frame. cbn [map].
    now rewrite !nombre_annotate_row.
Qed.

Lemma annotate_name_fallback_witness :
  exists out r,
    annotate_to_axis sqrt_floor
      [mkFeature (5000, 100) [("type", PyStr "source")];
       mkFeature (7500, - (200)) [("type", PyStr "disposal")]]
      simple_axis "Name" = Ok out
    /\ nth_error out 1 = Some (1%nat, r)
    /\ nombre r = PyStr "sin_nombre".
Proof.
  eexists.
  destruct (annotate_name_fallback sqrt_floor
              [mkFeature (5000, 100) [("type", PyStr "source")];
               mkFeature (7500, - (200)) [("type", PyStr "disposal")]]
              simple_axis "Name" _ eq_refl) as (_ & T & _).
  destruct (T 1%nat _ eq_refl) as (r & Hr & Hmissing & _).
  exists r. split; [reflexivity|]. split; [exact Hr|].
  apply Hmissing. reflexivity.
Defined.

(** C8, "never empty" fails: an empty source name is not null, so it is
    kept, and the record's name is the empty string. *)
Lemma annotate_name_empty :
  (exists out,
     annotate_to_axis sqrt_floor
       [mkFeature (5000, 100) [("Name", PyStr "")]] simple_axis "Name" = Ok out
     /\ names out = [PyStr ""])
  /\ ~ (forall gdf out,
          annotate_to_axis sqrt_floor gdf simple_axis "Name" = Ok out ->
          Forall (fun name => name <> PyStr "") (names out)).
Proof.
  assert (exists out,
     annotate_to_axis sqrt_floor
       [mkFeature (5000, 100) [("Name", PyStr "")]] simple_axis "Name" = Ok out
     /\ names out = [PyStr ""]) as E.
  { eexists. split; [reflexivity|]. vm_compute. reflexivity. }
  split; [exact E|].
  destruct E as (out & Hout & Hnames).
  intros H. specialize (H _ _ Hout).
  rewrite Hnames in H. inversion H as [|? ? Hne _]. now apply Hne.
Qed.

(** ** Sorting by chainage *)

Section InsertionFacts.
Variable key : annotated -> Q.
Variable before : Q -> Q -> bool.
Hypothesis before_true : forall kr kh, before kr kh = true -> kr <= kh.
Hypothesis before_false : forall kr kh, before kr kh = false -> kh <= kr.

Lemma insert_perm r l : Permutation (r :: l) (insert key before r l).
Proof.
  induction l as [|h t IH]; simpl; [reflexivity|].
  destruct (before _ _); [reflexivity|].
  rewrite perm_swap. now constructor.
Qed.

Lemma insert_sorted r l :
  Sorted (key_le key) l -> Sorted (key_le key) (insert key before r l).
Proof.
  induction l as [|h t IH]; intros Hs; simpl.
  - repeat constructor.
  - destruct (before _ _) eqn:E.
    + constructor; [assumption|]. constructor. now apply before_true.
    + apply Sorted_inv in Hs as [Hs Hh]. constructor; [now apply IH|].
      destruct t as [|h' t]; simpl.
      * constructor. now apply before_false.
      * destruct (before _ (key (snd h'))).
        -- constructor. now apply before_false.
        -- constructor. now apply HdRel_inv in Hh.
Qed.

Lemma insertion_sort_routine df :
  Permutation df (insertion_sort key before df)
  /\ Sorted (key_le key) (insertion_sort key before df).
Proof.
  induction df as [|r df [IHp IHs]]; simpl.
  - split; constructor.
  - split; [|now apply insert_sorted].
    rewrite <- insert_perm. now constructor.
Qed.

End InsertionFacts.

Lemma sort_stable_routine : sorting_routine sort_stable.
Proof.
  intros key df. apply insertion_sort_routine.
  - intros kr kh. apply Qle_bool_imp_le.
  - intros kr kh H. apply Qle_bool_false in H. lra.
Qed.

Lemma sort_ties_reversed_routine : sorting_routine sort_ties_reversed.
Proof.
  intros key df. apply insertion_sort_routine.
  - intros kr kh H. apply negb_true_iff, Qle_bool_false in H. lra.
  - intros kr kh H. apply negb_false_iff in H. now apply Qle_bool_imp_le.
Qed.

Lemma key_le_trans key : Relation_Definitions.transitive _ (key_le key).
Proof. intros a b c. unfold key_le. lra. Qed.

(** Sorted lists of the same rows are equal when the keys tell the rows
    apart. *)
Lemma sorted_unique key l1 :
  forall l2,
  distinct_keys key l1 ->
  Permutation l1 l2 ->
  StronglySorted (key_le key) l1 -> StronglySorted (key_le key) l2 ->
  l1 = l2.
Proof.
  induction l1 as [|a l1 IH]; intros l2 Hd Hp H1 H2.
  - now apply Permutation_nil in Hp.
  - destruct l2 as [|b l2]; [now apply Permutation_sym, Permutation_nil in Hp|].
    apply StronglySorted_inv in H1 as [H1 Ha], H2 as [H2 Hb].
    rewrite Forall_forall in Ha, Hb.
    assert (a = b) as <-.
    { assert (In a (b :: l2)) as [->|Ia]
        by (apply (Permutation_in a Hp); now left); [reflexivity|].
      assert (In b (a :: l1)) as Ib'
        by (apply (Permutation_in b (Permutation_sym Hp)); now left).
      destruct Ib' as [->|Ib]; [reflexivity|].
      apply Hd; [now left | now right |].
      specialize (Ha _ Ib). specialize (Hb _ Ia). unfold key_le in *. lra. }
    f_equal. apply IH; try assumption.
    + intros r1 r2 I1 I2. apply Hd; now right.
    + now apply Permutation_cons_inv in Hp.
Qed.

Lemma sorting_routine_unique sort_values key df :
  sorting_routine sort_values -> distinct_keys key df ->
  sort_values key df = sort_stable key df.
Proof.
  intros Hs Hd.
  destruct (Hs key df) as [P1 S1].
  destruct (sort_stable_routine key df) as [P2 S2].
  apply (sorted_unique key).
  - intros r1 r2 I1 I2.
    apply Hd; apply (Permutation_in _ (Permutation_sym P1)); assumption.
  - now rewrite <- P1.
  - apply Sorted_StronglySorted; [apply key_le_trans | assumption].
  - apply Sorted_StronglySorted; [apply key_le_trans | assumption].
Qed.

(** The stable routine keeps rows of equal key in their order. *)
Lemma insert_stable_ties key c r l :
  let f := fun r : nat * annotated => Qeq_bool (key (snd r)) c in
  filter f (insert key Qle_bool r l)
  = ((if f r then [r] else []) ++ filter f l)%list.
Proof.
  intros f. induction l as [|h t IH]; simpl.
  - now destruct (f r).
  - destruct (Qle_bool (key (snd r)) (key (snd h))) eqn:E.
    + simpl. now destruct (f r).
    + simpl. rewrite IH.
      destruct (f h) eqn:Eh, (f r) eqn:Er; try reflexivity.
      unfold f in Eh, Er. apply Qeq_bool_iff in Eh, Er.
      apply Qle_bool_false in E. exfalso. apply E. lra.
Qed.

Lemma sort_stable_ties key c df :
  let f := fun r : nat * annotated => Qeq_bool (key (snd r)) c in
  filter f (sort_stable key df) = filter f df.
Proof.
  intros f. induction df as [|r df IH]; [reflexivity|].
  change (sort_stable key (r :: df))
    with (insert key Qle_bool r (sort_stable key df)).
  rewrite (insert_stable_ties key c). fold f. rewrite IH.
  simpl. unfold f. now destruct (Qeq_bool (key (snd r)) c).
Qed.

Lemma ties_of_rows c df :
  ties_of c (rows df)
  = rows (filter (fun r => Qeq_bool (abscisa_m (snd r)) c) df).
Proof.
  unfold ties_of, rows. induction df as [|r df IH]; simpl; [reflexivity|].
  destruct (Qeq_bool _ c); simpl; now rewrite IH.
Qed.

Lemma rows_reset_index df : rows (reset_index df) = rows df.
Proof.
  unfold reset_index.
  rewrite <- (length_map snd df). apply rows_combine_seq.
Qed.

Lemma index_reset_index df : index (reset_index df) = seq 0 (List.length df).
Proof.
  unfold reset_index, index.
  rewrite <- (length_map snd df). apply index_combine_seq.
Qed.

Lemma strongly_sorted_rows key df :
  StronglySorted (key_le key) df ->
  StronglySorted (fun r1 r2 => key r1 <= key r2) (rows df).
Proof.
  induction 1 as [|r df Hs IH Hr]; simpl; constructor; [assumption|].
  unfold rows. rewrite Forall_map. exact Hr.
Qed.

Lemma three_features_distinct :
  distinct_keys abscisa_m
    (records_frame sqrt_floor three_features simple_axis "Name").
Proof.
  intros r1 r2 I1 I2 E.
  vm_compute in I1, I2.
  destruct I1 as [<-|[<-|[<-|[]]]], I2 as [<-|[<-|[<-|[]]]];
    try reflexivity; vm_compute in E; discriminate.
Qed.




(** * Further properties of the code *)

(** ** The codec on every label *)

Lemma numeral_upper c : numeral_char c = true -> upper_char c = c.
Proof.
  destruct c as [[] [] [] [] [] [] [] []]; vm_compute; congruence.
Qed.

Lemma numeral_not_space c : numeral_char c = true -> is_space c = false.
Proof.
  destruct c as [[] [] [] [] [] [] [] []]; vm_compute; congruence.
Qed.

Lemma numeral_not c x :
  numeral_char x = false -> numeral_char c = true -> Ascii.eqb c x = false.
Proof.
  intros Hx Hc. destruct (Ascii.eqb_spec c x) as [->|]; congruence.
Qed.

Lemma all_digits_numeral s :
  all_digits s = true -> all_chars numeral_char s = true.
Proof.
  induction s as [|c s IH]; simpl; [reflexivity|].
  intros [Hc Hs]%andb_prop. rewrite IH by assumption.
  unfold numeral_char. now rewrite Hc.
Qed.

Lemma upper_numeral s : all_chars numeral_char s = true -> upper s = s.
Proof.
  induction s as [|c s IH]; simpl; [reflexivity|].
  intros [Hc Hs]%andb_prop. now rewrite numeral_upper, IH.
Qed.

Lemma remove_char_numeral x s :
  numeral_char x = false -> all_chars numeral_char s = true ->
  remove_char x s = s.
Proof.
  intros Hx. induction s as [|c s IH]; simpl; [reflexivity|].
  intros [Hc Hs]%andb_prop. now rewrite (numeral_not c x), IH.
Qed.

Lemma split_numeral x s :
  numeral_char x = false -> all_chars numeral_char s = true ->
  split x s = [s].
Proof.
  intros Hx. induction s as [|c s IH]; simpl; [reflexivity|].
  intros [Hc Hs]%andb_prop. now rewrite (numeral_not c x), IH.
Qed.

Lemma split_numeral_app x a b :
  numeral_char x = false -> all_chars numeral_char a = true ->
  split x (a ++ String x b) = a :: split x b.
Proof.
  intros Hx. induction a as [|c a IH]; simpl.
  - now rewrite Ascii.eqb_refl.
  - intros [Hc Ha]%andb_prop. now rewrite (numeral_not c x), IH.
Qed.

Lemma rstrip_numeral s : all_chars numeral_char s = true -> rstrip s = s.
Proof.
  induction s as [|c s IH]; simpl; [reflexivity|].
  intros [Hc Hs]%andb_prop. rewrite IH by assumption.
  destruct s; [now rewrite numeral_not_space | reflexivity].
Qed.

Lemma strip_numeral s : all_chars numeral_char s = true -> strip s = s.
Proof.
  intros H. unfold strip. rewrite rstrip_numeral by assumption.
  destruct s as [|c s]; simpl in *; [reflexivity|].
  apply andb_prop in H as [Hc _]. now rewrite numeral_not_space.
Qed.

(** [str] of any integer is a signed numeral and [int] reads it back. *)
Lemma str_any n : all_chars numeral_char (str n) = true /\ int (str n) = Ok n.
Proof.
  destruct (Z.lt_ge_cases n 0) as [Hn|Hn].
  - destruct n as [|p|p]; try lia.
    assert (str (Z.neg p)
            = String "-" (NilEmpty.string_of_uint (Pos.to_uint p))) as E.
    { unfold str. simpl.
      pose proof (DecimalPos.Unsigned.to_uint_nonnil p) as Hnil.
      destruct (Pos.to_uint p); [congruence | reflexivity ..]. }
    rewrite E. split.
    + simpl. apply all_digits_numeral, all_digits_uint.
    + unfold int. rewrite strip_numeral
        by (simpl; apply all_digits_numeral, all_digits_uint).
      rewrite literal_digits_uint_first
        by apply DecimalPos.Unsigned.to_uint_nonnil.
      simpl. f_equal. unfold Z.of_uint.
      now rewrite DecimalPos.Unsigned.of_to.
  - destruct (str_nonneg n ltac:(lia)) as [Hd Hi].
    split; [now apply all_digits_numeral | exact Hi].
Qed.

Lemma parse_two_signed a b km rest :
  all_chars numeral_char a = true -> all_chars numeral_char b = true ->
  int a = Ok km -> int b = Ok rest ->
  parse_chainage (String "K" (a ++ String "+" b))
  = Ok (inject_Z (km * 1000 + rest)%Z).
Proof.
  intros Ha Hb Ia Ib. unfold parse_chainage.
  assert (upper (String "K" (a ++ String "+" b)) = String "K" (a ++ String "+" b))
    as ->.
  { simpl. rewrite upper_app. simpl. now rewrite !upper_numeral. }
  assert (remove_char "K" (String "K" (a ++ String "+" b)) = a ++ String "+" b)
    as ->.
  { simpl. rewrite remove_char_app. simpl.
    now rewrite !remove_char_numeral. }
  rewrite split_numeral_app, split_numeral by easy.
  simpl. now rewrite Ia, Ib.
Qed.

Lemma parse_format_any d :
  parse_chainage (format_chainage d) = Ok (inject_Z (round d)).
Proof.
  rewrite format_chainage_eq.
  destruct (str_any (round d / 1000)) as [Ha Ia].
  destruct (format_0d_3 (round d mod 1000)) as (Hb & Ib & _);
    [apply Z.mod_pos_bound; lia|].
  rewrite (parse_two_signed _ _ _ _ Ha (all_digits_numeral _ Hb) Ia Ib).
  do 2 f_equal. rewrite (Z.div_mod (round d) 1000) at 3 by lia. ring.
Qed.

Lemma round_integer n : round (inject_Z n) = n.
Proof.
  destruct (round_floor_cases (inject_Z n)) as [[H E]|[[H E]|[H E]]];
    rewrite Qfloor_Z in *; [exact E | lra | lra].
Qed.


(** X2: a label that parses keeps its value when it is formatted again:
    [format_chainage] of the parsed distance is a label of the same
    distance, though not always the same text. *)
Theorem parse_chainage_reformat label v :
  parse_chainage label = Ok v ->
  parse_chainage (format_chainage v) = Ok v.
Proof.
  unfold parse_chainage at 1.
  destruct (getitem _ 0) as [p0|]; simpl; [|discriminate].
  destruct (int p0) as [km|]; simpl; [|discriminate].
  destruct (getitem _ 1) as [p1|]; simpl; [|discriminate].
  destruct (int p1) as [rest|]; simpl; [|discriminate].
  intros [= <-]. now rewrite parse_format_any, round_integer.
Qed.

Lemma parse_chainage_reformat_witness :
  parse_chainage "K5+1" = Ok 5001
  /\ format_chainage 5001 = "K5+001"
  /\ parse_chainage (format_chainage 5001) = Ok 5001.
Proof.
  assert (parse_chainage "K5+1" = Ok 5001) as H by reflexivity.
  split; [exact H|]. split; [reflexivity|].
  exact (parse_chainage_reformat "K5+1" 5001 H).
Defined.

Lemma upper_char_idem c : upper_char (upper_char c) = upper_char c.
Proof. destruct c as [[] [] [] [] [] [] [] []]; reflexivity. Qed.

Lemma upper_idem s : upper (upper s) = upper s.
Proof.
  induction s as [|c s IH]; simpl; [reflexivity|].
  now rewrite upper_char_idem, IH.
Qed.

Lemma upper_char_plus c : Ascii.eqb (upper_char c) "+" = Ascii.eqb c "+".
Proof. destruct c as [[] [] [] [] [] [] [] []]; reflexivity. Qed.

Lemma has_char_upper s : has_char "+" (upper s) = has_char "+" s.
Proof.
  induction s as [|c s IH]; simpl; [reflexivity|].
  now rewrite upper_char_plus, IH.
Qed.

Lemma has_char_remove s : has_char "+" (remove_char "K" s) = has_char "+" s.
Proof.
  induction s as [|c s IH]; simpl; [reflexivity|].
  destruct (Ascii.eqb_spec c "K") as [->|]; simpl; now rewrite IH.
Qed.

Lemma split_no_separator x s : has_char x s = false -> split x s = [s].
Proof.
  induction s as [|c s IH]; simpl; [reflexivity|].
  intros [Hc Hs]%orb_false_elim. now rewrite Hc, IH.
Qed.

(** The parser sees a label through its upper-case form without K. *)
Lemma parse_chainage_normal l1 l2 :
  remove_char "K" (upper l1) = remove_char "K" (upper l2) ->
  parse_chainage l1 = parse_chainage l2.
Proof. intros E. unfold parse_chainage. now rewrite E. Qed.

(** X3: the parser drops every K and k, wherever it stands in the label,
    and does not tell upper from lower case. *)
Theorem parse_chainage_ignores_k a b label :
  parse_chainage (a ++ String "K" b) = parse_chainage (a ++ b)
  /\ parse_chainage (a ++ String "k" b) = parse_chainage (a ++ b)
  /\ parse_chainage (upper label) = parse_chainage label.
Proof.
  repeat split; apply parse_chainage_normal.
  - rewrite !upper_app, !remove_char_app. reflexivity.
  - rewrite !upper_app, !remove_char_app. reflexivity.
  - now rewrite upper_idem.
Qed.

(** X4: a label without the separator [+] is rejected with [ValueError],
    whatever else it holds. *)
Theorem parse_chainage_needs_separator label :
  has_char "+" label = false ->
  parse_chainage label = Raise ValueError.
Proof.
  intros H. unfold parse_chainage.
  rewrite split_no_separator by now rewrite has_char_remove, has_char_upper.
  simpl. now destruct (int _).
Qed.

Lemma parse_chainage_needs_separator_witness :
  has_char "+" "K5 250" = false
  /\ parse_chainage "K5 250" = Raise ValueError.
Proof.
  assert (has_char "+" "K5 250" = false) as H by reflexivity.
  split; [exact H|].
  exact (parse_chainage_needs_separator "K5 250" H).
Defined.

(** ** Markers and their tables *)

(** Whatever the fuel, a loop that returns has appended the markers of
    consecutive distances. *)
Lemma generate_loop_returns sqrt line total i fuel :
  forall d points r,
  generate_loop sqrt fuel line total i d points = Some r ->
  exists n, r = (points ++ map (marker_at sqrt line) (dist_seq d i n))%list.
Proof.
  induction fuel as [|fuel IH]; intros d points r H; simpl in H;
    [discriminate|].
  destruct (Qle_bool d total).
  - apply IH in H as [n ->]. exists (S n). simpl.
    now rewrite <- app_assoc.
  - injection H as <-. exists 0%nat. simpl. now rewrite app_nil_r.
Qed.

Lemma generate_chainage_points_returns sqrt fuel line i start markers :
  generate_chainage_points sqrt fuel line i start = Some markers ->
  markers = map (marker_at sqrt line) (dist_seq start i (List.length markers)).
Proof.
  unfold generate_chainage_points. intros H.
  apply generate_loop_returns in H as [n ->]. simpl.
  now rewrite length_map, dist_seq_length.
Qed.

Lemma dist_seq_from start i n d :
  0 <= i -> In d (dist_seq start i n) -> start <= d.
Proof.
  intros Hi. revert start. induction n as [|n IH]; intros start; simpl.
  - intros [].
  - intros [<-|H]; [lra|]. apply IH in H. lra.
Qed.

(** More than a meter apart, two distances round to different meters. *)
Lemma round_apart x y : x + 1 < y -> (round x < round y)%Z.
Proof.
  intros H.
  pose proof (round_nearest x) as Hx. pose proof (round_nearest y) as Hy.
  apply Qabs_Qle_condition in Hx as [Hx _], Hy as [_ Hy].
  assert (inject_Z (round x) < inject_Z (round y)) as Hlt by lra.
  now rewrite <- Zlt_Qlt in Hlt.
Qed.

Lemma dist_seq_labels_distinct start i n :
  1 < i -> NoDup (map format_chainage (dist_seq start i n)).
Proof.
  intros Hi. revert start. induction n as [|n IH]; intros start; simpl;
    constructor; [|apply IH].
  intros Hin. apply in_map_iff in Hin as (d & E & Hd).
  apply dist_seq_from in Hd; [|lra].
  assert (round start < round d)%Z as Hlt by (apply round_apart; lra).
  pose proof (parse_format_any d) as P.
  rewrite E, parse_format_any in P. injection P as P. lia.
Qed.





(** X7: the table of chainage points has one row per marker, in order; for
    the markers of [generate_chainage_points] every row holds a distance of
    the sequence, the label of that distance, the coordinates of the
    line's point at it, and the CRS string of the given code. *)
Theorem create_chainage_table_rows
  sqrt fuel line interval_m start_m markers crs_epsg :
  generate_chainage_points sqrt fuel line interval_m start_m = Some markers ->
  let table := OutputsTables.create_chainage_table markers crs_epsg in
  List.length table = List.length markers
  /\ map OutputsTables.distancia_m table
     = dist_seq start_m interval_m (List.length markers)
  /\ Forall (fun r =>
       OutputsTables.abscisa r = format_chainage (OutputsTables.distancia_m r)
       /\ (OutputsTables.x r, OutputsTables.y r)
          = interpolate sqrt line (OutputsTables.distancia_m r)
       /\ OutputsTables.crs r = "EPSG:" ++ str crs_epsg) table.
Proof.
  intros H table. unfold table, OutputsTables.create_chainage_table.
  split; [apply length_map|].
  pose proof (generate_chainage_points_returns _ _ _ _ _ _ H) as E.
  set (n := List.length markers) in *. rewrite E. split.
  - rewrite !map_map. cbn. apply map_id.
  - rewrite Forall_map, Forall_map. apply Forall_forall. intros d _. cbn.
    now destruct (interpolate sqrt line d).
Qed.

Lemma create_chainage_table_rows_witness :
  exists markers,
    generate_chainage_points sqrt_floor 4 [(0, 0); (2500, 0)] 1000 0
    = Some markers
    /\ map OutputsTables.distancia_m
         (OutputsTables.create_chainage_table markers 9377)
       = [0; 1000; 2000].
Proof.
  eexists. split; [reflexivity|].
  apply (create_chainage_table_rows sqrt_floor 4 [(0, 0); (2500, 0)]
           1000 0 _ 9377 eq_refl).
Defined.

(** ** Annotated frames *)



Lemma annotate_row_fields sqrt axis name_field row :
  let r := annotate_row sqrt axis name_field row in
  let on_axis := interpolate sqrt axis (project sqrt axis (geometry row)) in
  x r = fst (geometry row)
  /\ y r = snd (geometry row)
  /\ geometry_axis r = on_axis
  /\ (x_axis r, y_axis r) = on_axis
  /\ dist_m r = distance sqrt (geometry row) axis
  /\ abscisa_m r = project sqrt axis on_axis
  /\ abscisa_lbl r = format_chainage (abscisa_m r).
Proof.
  unfold annotate_row, project_point_to_line, chainage,
    perpendicular_distance. cbn.
  repeat split. now destruct (interpolate _ _ _).
Qed.

(** X9: every record of an annotated frame keeps the coordinates of its
    feature, holds the projected point both as coordinates and as geometry,
    an offset that is not negative, and a label that is the label of its
    chainage and parses back to the chainage rounded to the meter. *)
Theorem annotate_record_invariants sqrt gdf axis name_field out :
  (forall q, 0 <= sqrt q) ->
  annotate_to_axis sqrt gdf axis name_field = Ok out ->
  forall i row,
    nth_error gdf i = Some row ->
    exists r,
      nth_error out i = Some (i, r)
      /\ (x r, y r) = geometry row
      /\ geometry_axis r = (x_axis r, y_axis r)
      /\ 0 <= dist_m r
      /\ abscisa_lbl r = format_chainage (abscisa_m r)
      /\ parse_chainage (abscisa_lbl r) = Ok (inject_Z (round (abscisa_m r))).
Proof.
  intros Hnn Hout i row Hi.
  apply annotate_to_axis_returns in Hout as ->.
  exists (annotate_row sqrt axis name_field row).
  destruct (annotate_row_fields sqrt axis name_field row)
    as (Hx & Hy & Hg & Hxy & Hd & _ & Hl).
  split.
  { unfold records_frame. cbv zeta.
    rewrite (combine_seq_nth _ i (annotate_row sqrt axis name_field row));
      [reflexivity | now apply map_nth_error]. }
  split; [rewrite Hx, Hy; now destruct (geometry row)|].
  split; [now rewrite Hg, Hxy|].
  split.
  { rewrite Hd. unfold distance.
    destruct (sweep _ _ _ _ _) as [[d2 m]|]; [apply Hnn | lra]. }
  split; [exact Hl|].
  rewrite Hl. apply parse_format_any.
Qed.

Lemma annotate_record_invariants_witness :
  exists out r,
    annotate_to_axis sqrt_floor three_features simple_axis "Name" = Ok out
    /\ nth_error out 1 = Some (1%nat, r)
    /\ (x r, y r) = (2000, 0)
    /\ abscisa_lbl r = "K2+000".
Proof.
  eexists.
  destruct (annotate_record_invariants sqrt_floor three_features simple_axis
              "Name" _ sqrt_floor_nonneg eq_refl 1%nat _ eq_refl)
    as (r & Hr & Hxy & _).
  exists r. split; [reflexivity|]. split; [exact Hr|]. split; [exact Hxy|].
  injection Hr as <-. vm_compute. reflexivity.
Defined.

(** X10: [filter_by_radius] keeps exactly the rows whose offset is at most
    the radius, the boundary included; rows stay in their order, so
    filtering the parts of a frame and joining them is filtering the frame;
    two filters commute, and the narrower one alone gives the same as
    both. *)
Theorem filter_by_radius_keeps gdf gdf' radius_m radius' :
  (forall row,
     In row (filter_by_radius gdf radius_m)
     <-> In row gdf /\ dist_m (snd row) <= radius_m)
  /\ filter_by_radius (gdf ++ gdf')%list radius_m
     = (filter_by_radius gdf radius_m ++ filter_by_radius gdf' radius_m)%list
  /\ filter_by_radius (filter_by_radius gdf radius_m) radius'
     = filter_by_radius (filter_by_radius gdf radius') radius_m
  /\ (radius_m <= radius' ->
      filter_by_radius (filter_by_radius gdf radius') radius_m
      = filter_by_radius gdf radius_m).
Proof.
  unfold filter_by_radius. split.
  { intros row. rewrite filter_In, Qle_bool_iff. reflexivity. }
  split; [apply filter_app|].
  split.
  { induction gdf as [|r gdf IH]; simpl; [reflexivity|].
    destruct (Qle_bool (dist_m (snd r)) radius_m) eqn:E1,
             (Qle_bool (dist_m (snd r)) radius') eqn:E2;
      simpl; rewrite ?E1, ?E2, IH; reflexivity. }
  intros Hle. induction gdf as [|r gdf IH]; simpl; [reflexivity|].
  destruct (Qle_bool (dist_m (snd r)) radius') eqn:E2; simpl.
  - now rewrite IH.
  - rewrite IH.
    assert (Qle_bool (dist_m (snd r)) radius_m = false) as ->; [|reflexivity].
    apply Qle_bool_false in E2. apply Qle_bool_false. lra.
Qed.

Lemma filter_by_radius_keeps_witness :
  100 <= 250
  /\ forall gdf,
       filter_by_radius (filter_by_radius gdf 250) 100
       = filter_by_radius gdf 100.
Proof.
  assert (100 <= 250) as H by lra.
  split; [exact H|]. intros gdf.
  exact (proj2 (proj2 (proj2 (filter_by_radius_keeps gdf [] 100 250))) H).
Defined.

Lemma permutation_filter {A} (f : A -> bool) l l' :
  Permutation l l' -> Permutation (filter f l) (filter f l').
Proof.
  induction 1 as [|a l l' _ IH|a b l|l l' l'' _ IH1 _ IH2]; simpl.
  - constructor.
  - destruct (f a); [now constructor | assumption].
  - destruct (f a), (f b); try reflexivity. apply perm_swap.
  - now transitivity (filter f l').
Qed.

Lemma strongly_sorted_filter {A} (R : A -> A -> Prop) (f : A -> bool) l :
  StronglySorted R l -> StronglySorted R (filter f l).
Proof.
  induction 1 as [|a l Hs IH Ha]; simpl; [constructor|].
  destruct (f a); [|assumption].
  constructor; [assumption|].
  rewrite Forall_forall in *. intros b Hb. apply Ha.
  now apply filter_In in Hb.
Qed.

(** Ascending lists of the same records are equal when the chainages tell
    the records apart. *)
Lemma ascending_unique l1 :
  forall l2,
  distinct_chainages l1 ->
  Permutation l1 l2 ->
  StronglySorted (fun r1 r2 => abscisa_m r1 <= abscisa_m r2) l1 ->
  StronglySorted (fun r1 r2 => abscisa_m r1 <= abscisa_m r2) l2 ->
  l1 = l2.
Proof.
  induction l1 as [|a l1 IH]; intros l2 Hd Hp H1 H2.
  - now apply Permutation_nil in Hp.
  - destruct l2 as [|b l2]; [now apply Permutation_sym, Permutation_nil in Hp|].
    apply StronglySorted_inv in H1 as [H1 Ha], H2 as [H2 Hb].
    rewrite Forall_forall in Ha, Hb.
    assert (a = b) as <-.
    { assert (In a (b :: l2)) as [->|Ia]
        by (apply (Permutation_in a Hp); now left); [reflexivity|].
      assert (In b (a :: l1)) as Ib'
        by (apply (Permutation_in b (Permutation_sym Hp)); now left).
      destruct Ib' as [->|Ib]; [reflexivity|].
      apply Hd; [now left | now right |].
      specialize (Ha _ Ib). specialize (Hb _ Ia). lra. }
    f_equal. apply IH; try assumption.
    + intros r1 r2 I1 I2. apply Hd; now right.
    + now apply Permutation_cons_inv in Hp.
Qed.

Lemma sort_values_rows sort_values df :
  sorting_routine sort_values ->
  Permutation (rows df) (rows (sort_values abscisa_m df))
  /\ StronglySorted (fun r1 r2 => abscisa_m r1 <= abscisa_m r2)
       (rows (sort_values abscisa_m df)).
Proof.
  intros Hs. destruct (Hs abscisa_m df) as [Hp Hsorted]. split.
  - unfold rows. now apply Permutation_map.
  - apply strongly_sorted_rows.
    apply Sorted_StronglySorted; [apply key_le_trans | assumption].
Qed.

Lemma rows_filter_by_radius df radius_m :
  rows (filter_by_radius df radius_m)
  = filter (fun r => Qle_bool (dist_m r) radius_m) (rows df).
Proof.
  unfold rows, filter_by_radius.
  induction df as [|r df IH]; simpl; [reflexivity|].
  destruct (Qle_bool _ radius_m); simpl; now rewrite IH.
Qed.

Lemma reset_index_rows df df' :
  rows df = rows df' -> reset_index df = reset_index df'.
Proof.
  intros E. unfold reset_index. rewrite E. do 2 f_equal.
  rewrite <- (length_map snd df), <- (length_map snd df').
  unfold rows in E. now rewrite E.
Qed.

(** X11: for any sorting routine, sorting by chainage and filtering by
    radius give the same records in either order, when no two records
    share a chainage. *)
Theorem sort_filter_commute sort_values df radius_m :
  sorting_routine sort_values ->
  distinct_chainages (rows df) ->
  rows (sort_by_chainage sort_values (filter_by_radius df radius_m))
  = rows (filter_by_radius (sort_by_chainage sort_values df) radius_m).
Proof.
  intros Hs Hd. unfold sort_by_chainage.
  rewrite rows_reset_index, rows_filter_by_radius, rows_reset_index.
  destruct (sort_values_rows sort_values df Hs) as [P1 S1].
  destruct (sort_values_rows sort_values (filter_by_radius df radius_m) Hs)
    as [P2 S2].
  rewrite rows_filter_by_radius in P2.
  apply ascending_unique.
  - intros r1 r2 I1 I2. apply Hd.
    + apply (Permutation_in _ (Permutation_sym P2)) in I1.
      now apply filter_In in I1.
    + apply (Permutation_in _ (Permutation_sym P2)) in I2.
      now apply filter_In in I2.
  - rewrite <- P2. now apply permutation_filter.
  - exact S2.
  - now apply strongly_sorted_filter.
Qed.

Lemma three_features_distinct_chainages :
  distinct_chainages
    (rows (records_frame sqrt_floor three_features simple_axis "Name")).
Proof.
  intros r1 r2 I1 I2 E.
  vm_compute in I1, I2.
  destruct I1 as [<-|[<-|[<-|[]]]], I2 as [<-|[<-|[<-|[]]]];
    try reflexivity; vm_compute in E; discriminate.
Qed.

Lemma sort_filter_commute_witness :
  map nombre
    (rows (filter_by_radius
             (sort_by_chainage sort_ties_reversed
                (records_frame sqrt_floor three_features simple_axis "Name"))
             50))
  = [PyStr "First"; PyStr "Middle"; PyStr "Last"].
Proof.
  rewrite <- (sort_filter_commute sort_ties_reversed
                (records_frame sqrt_floor three_features simple_axis "Name")
                50 sort_ties_reversed_routine
                three_features_distinct_chainages).
  vm_compute. reflexivity.
Defined.

(** X12: for any sorting routine, sorting a sorted frame again changes
    nothing, index included, when no two records share a chainage. *)
Theorem sort_by_chainage_idempotent sort_values df :
  sorting_routine sort_values ->
  distinct_chainages (rows df) ->
  sort_by_chainage sort_values (sort_by_chainage sort_values df)
  = sort_by_chainage sort_values df.
Proof.
  intros Hs Hd. unfold sort_by_chainage at 1 3.
  apply reset_index_rows.
  destruct (sort_values_rows sort_values df Hs) as [P1 S1].
  destruct (sort_values_rows sort_values (sort_by_chainage sort_values df) Hs)
    as [P2 S2].
  unfold sort_by_chainage in P2 at 1. rewrite rows_reset_index in P2.
  symmetry. apply ascending_unique; try assumption.
  intros r1 r2 I1 I2.
  apply Hd; now apply (Permutation_in _ (Permutation_sym P1)).
Qed.

Lemma sort_by_chainage_idempotent_witness :
  sort_by_chainage sort_ties_reversed
    (sort_by_chainage sort_ties_reversed
       (records_frame sqrt_floor three_features simple_axis "Name"))
  = sort_by_chainage sort_ties_reversed
      (records_frame sqrt_floor three_features simple_axis "Name").
Proof.
  exact (sort_by_chainage_idempotent sort_ties_reversed _
           sort_ties_reversed_routine three_features_distinct_chainages).
Defined.

(** ** The corridor axis of a frame *)



(** ** Coordinate reference systems *)





Lemma str_injective a b : str a = str b -> a = b.
Proof.
  intros E. destruct (str_any a) as [_ Ha], (str_any b) as [_ Hb].
  rewrite E, Hb in Ha. now injection Ha.
Qed.

Lemma get_crs_info_cases epsg :
  (epsg = 4326%Z
   /\ Crs.get_crs_info epsg = Crs.mkCrsInfo 4326 "WGS84 (GPS)" "degrees")
  \/ (epsg = 9377%Z
      /\ Crs.get_crs_info epsg
         = Crs.mkCrsInfo 9377 "MAGNA-SIRGAS Colombia" "meters")
  \/ (epsg = 32618%Z
      /\ Crs.get_crs_info epsg = Crs.mkCrsInfo 32618 "UTM Zone 18N" "meters")
  \/ (epsg = 3857%Z
      /\ Crs.get_crs_info epsg = Crs.mkCrsInfo 3857 "Web Mercator" "meters")
  \/ (~ In epsg [4326; 9377; 32618; 3857]%Z
      /\ Crs.get_crs_info epsg
         = Crs.mkCrsInfo epsg ("EPSG:" ++ str epsg) "unknown").
Proof.
  unfold Crs.get_crs_info, Crs.crs_data. cbn [Crs.dict_get].
  destruct (Z.eqb_spec 4326 epsg) as [<-|H1]; [now left|].
  destruct (Z.eqb_spec 9377 epsg) as [<-|H2]; [now right; left|].
  destruct (Z.eqb_spec 32618 epsg) as [<-|H3]; [now right; right; left|].
  destruct (Z.eqb_spec 3857 epsg) as [<-|H4]; [now right; right; right; left|].
  right; right; right; right. split; [|reflexivity].
  simpl. intuition congruence.
Qed.

(** X16: [get_crs_info] echoes the code it is given.  Only the four codes
    of its table have a name and units of their own: degrees for 4326,
    meters for 9377, 32618 and 3857; any other code is named after itself,
    with unknown units.  Different codes never get the same name. *)
Theorem get_crs_info_table epsg :
  Crs.info_epsg (Crs.get_crs_info epsg) = epsg
  /\ (Crs.info_units (Crs.get_crs_info epsg) = "degrees" <-> epsg = 4326%Z)
  /\ (Crs.info_units (Crs.get_crs_info epsg) = "meters"
      <-> In epsg [9377; 32618; 3857]%Z)
  /\ (~ In epsg [4326; 9377; 32618; 3857]%Z ->
      Crs.get_crs_info epsg
      = Crs.mkCrsInfo epsg ("EPSG:" ++ str epsg) "unknown")
  /\ (forall epsg',
        Crs.info_name (Crs.get_crs_info epsg)
        = Crs.info_name (Crs.get_crs_info epsg') ->
        epsg = epsg').
Proof.
  split; [unfold Crs.get_crs_info; now destruct (Crs.dict_get _ _ _)|].
  split; [|split; [|split]].
  - destruct (get_crs_info_cases epsg)
      as [[-> ->]|[[-> ->]|[[-> ->]|[[-> ->]|[Hn ->]]]]]; simpl;
      split; try easy.
    intros ->. exfalso. apply Hn. simpl. auto.
  - destruct (get_crs_info_cases epsg)
      as [[-> ->]|[[-> ->]|[[-> ->]|[[-> ->]|[Hn ->]]]]]; simpl;
      split; try easy; try (intros _; auto; fail);
      try (intros [H|[H|[H|[]]]]; discriminate).
    intros H. exfalso. apply Hn. simpl. tauto.
  - intros Hn.
    destruct (get_crs_info_cases epsg)
      as [[-> _]|[[-> _]|[[-> _]|[[-> _]|[_ E]]]]];
      try (exfalso; apply Hn; simpl; tauto). exact E.
  - intros epsg'.
    destruct (get_crs_info_cases epsg)
      as [[-> ->]|[[-> ->]|[[-> ->]|[[-> ->]|[Hn ->]]]]];
    destruct (get_crs_info_cases epsg')
      as [[-> ->]|[[-> ->]|[[-> ->]|[[-> ->]|[Hn' ->]]]]];
      cbn [Crs.info_name]; try reflexivity; try discriminate.
    intros E. apply str_injective.
    change ("EPSG:" ++ str epsg) with
      (String "E" (String "P" (String "S" (String "G" (String ":" (str epsg))))))
      in E.
    change ("EPSG:" ++ str epsg') with
      (String "E" (String "P" (String "S" (String "G" (String ":" (str epsg'))))))
      in E.
    now injection E.
Qed.

Lemma get_crs_info_table_witness :
  ~ In 21897%Z [4326; 9377; 32618; 3857]%Z
  /\ Crs.get_crs_info 21897 = Crs.mkCrsInfo 21897 "EPSG:21897" "unknown".
Proof.
  assert (~ In 21897%Z [4326; 9377; 32618; 3857]%Z) as H
    by (simpl; intuition discriminate).
  split; [exact H|].
  exact (proj1 (proj2 (proj2 (proj2 (get_crs_info_table 21897)))) H).
Defined.

(** ** Unique borehole identifiers *)

Lemma int_raises s e : int s = Raise e -> e = ValueError.
Proof.
  unfold int.
  destruct (match strip s with
            | EmptyString => _
            | String _ _ => _
            end); [discriminate | now intros [= <-]].
Qed.

Lemma setitem_new d key value :
  Geology.contains d key = false ->
  Geology.getitem_key (Geology.setitem d key value) key = Ok value
  /\ Geology.sum_values (Geology.setitem d key value)
     = (Geology.sum_values d + value)%Z.
Proof.
  induction d as [|[k v] d IH]; simpl.
  - intros _. rewrite Z.eqb_refl. split; [reflexivity | lia].
  - intros [Hk Hd]%orb_false_elim. rewrite Hk. simpl. rewrite Hk.
    destruct (IH Hd) as [IH1 IH2]. split; [exact IH1|].
    unfold Geology.sum_values in *. simpl. lia.
Qed.

Lemma setitem_old d key v value :
  Geology.getitem_key d key = Ok v ->
  Geology.getitem_key (Geology.setitem d key value) key = Ok value
  /\ Geology.sum_values (Geology.setitem d key value)
     = (Geology.sum_values d - v + value)%Z.
Proof.
  induction d as [|[k w] d IH]; simpl; [discriminate|].
  destruct (Z.eqb_spec k key) as [->|Hk]; simpl.
  - intros [= ->]. rewrite Z.eqb_refl.
    split; [reflexivity|]. unfold Geology.sum_values. simpl. lia.
  - intros H. destruct (Z.eqb_spec k key); [congruence|].
    destruct (IH H) as [IH1 IH2]. split; [exact IH1|].
    unfold Geology.sum_values in *. simpl. lia.
Qed.

Lemma contains_getitem d key :
  Geology.contains d key = true -> exists v, Geology.getitem_key d key = Ok v.
Proof.
  induction d as [|[k w] d IH]; simpl; [discriminate|].
  destruct (k =? key)%Z; simpl; eauto.
Qed.

(** One turn of the loop never raises: it adds one to the total of the
    counts and appends the identifier of that total. *)
Lemma assign_step_total counts uids row :
  exists counts',
    Geology.assign_step (counts, uids) row
    = Ok (counts',
          (uids ++ [("S" ++ str (Geology.sum_values counts + 1))%string])%list)
    /\ Geology.sum_values counts' = (Geology.sum_values counts + 1)%Z.
Proof.
  unfold Geology.assign_step.
  set (grupo := snd row).
  assert (exists c1 v,
            (if negb (Geology.contains counts grupo)
             then Geology.setitem counts grupo 0 else counts) = c1
            /\ Geology.getitem_key c1 grupo = Ok v
            /\ Geology.sum_values c1 = Geology.sum_values counts)
    as (c1 & v & -> & Hget & Hsum).
  { destruct (Geology.contains counts grupo) eqn:E; simpl.
    - destruct (contains_getitem _ _ E) as [v Hv]. eauto.
    - destruct (setitem_new counts grupo 0 E) as [H1 H2].
      exists (Geology.setitem counts grupo 0), 0%Z.
      repeat split; [exact H1 | lia]. }
  rewrite Hget. cbn [bind].
  destruct (setitem_old c1 grupo v (v + 1) Hget) as [Hget' Hsum'].
  exists (Geology.setitem c1 grupo (v + 1)).
  assert (Geology.sum_values (Geology.setitem c1 grupo (v + 1))
          = (Geology.sum_values counts + 1)%Z) as E by lia.
  rewrite E. split; [|reflexivity].
  destruct (int _) as [num|e] eqn:Hint; cbn [bind]; [reflexivity|].
  apply int_raises in Hint as ->. rewrite Hget'. reflexivity.
Qed.

Lemma assign_loop_total rows :
  forall counts uids,
  exists counts',
    Geology.assign_loop (counts, uids) rows
    = Ok (counts',
          (uids ++ map (fun k => ("S" ++ str (Geology.sum_values counts
                                              + Z.of_nat (S k)))%string)
                     (seq 0 (List.length rows)))%list).
Proof.
  induction rows as [|row rows IH]; intros counts uids.
  - exists counts. simpl. now rewrite app_nil_r.
  - cbn [Geology.assign_loop List.length seq map].
    destruct (assign_step_total counts uids row) as (c1 & -> & Hsum).
    cbn [bind].
    destruct (IH c1 (uids ++ [("S" ++ str (Geology.sum_values counts + 1))%string])%list)
      as (c2 & ->).
    exists c2. do 2 f_equal. rewrite <- app_assoc. f_equal. cbn [app].
    f_equal.
    rewrite <- seq_shift, map_map. apply map_ext. intros k.
    do 2 f_equal. rewrite Hsum. lia.
Qed.

Lemma cumsum_length acc col : List.length (Geology.cumsum acc col) = List.length col.
Proof. revert acc. induction col; intros; simpl; auto. Qed.

Lemma cumsum_hits marker ids :
  forall acc,
  Geology.cumsum acc (map (Geology.group_start_of marker) ids)
  = map (fun k => (acc + hits marker (firstn (S k) ids))%Z)
      (seq 0 (List.length ids)).
Proof.
  assert (forall v, Geology.group_start_of marker v
                    = if is_marker marker v then 1%Z else 0%Z) as Hgs
    by (intros [s| | |]; reflexivity).
  induction ids as [|v ids IH]; intros acc; [reflexivity|].
  cbn [map Geology.cumsum List.length seq]. rewrite IH. f_equal.
  - unfold hits. cbn [firstn filter]. rewrite Hgs.
    destruct (is_marker marker v); simpl; lia.
  - rewrite <- seq_shift, map_map. apply map_ext. intros k.
    unfold hits. cbn [firstn filter]. rewrite Hgs.
    destruct (is_marker marker v); cbn [List.length]; lia.
Qed.

Lemma id_rows_columns (a : list Geology.id_value) :
  forall (b c : list Z) (d : list string),
  List.length b = List.length a -> List.length c = List.length a ->
  List.length d = List.length a ->
  let out :=
    map (fun r : Geology.id_value * Z * Z * string =>
           let '(v, gs, g, u) := r in
           Geology.mkIdRow v gs g u)
        (combine (combine (combine a b) c) d) in
  map Geology.id out = a /\ map Geology.group_start out = b
  /\ map Geology.grupo out = c /\ map Geology.id_unico out = d.
Proof.
  induction a as [|v a IH]; intros [|gs b] [|g c] [|u d] Hb Hc Hd;
    try discriminate; simpl; [easy|].
  destruct (IH b c d) as (H1 & H2 & H3 & H4); try (simpl in *; lia).
  cbv zeta in *. now rewrite H1, H2, H3, H4.
Qed.

Lemma nodup_map_injective {A B} (f : A -> B) l :
  (forall x y, f x = f y -> x = y) -> NoDup l -> NoDup (map f l).
Proof.
  intros Hf. induction 1 as [|x l Hx Hl IH]; simpl; constructor; [|exact IH].
  intros Hin. apply in_map_iff in Hin as (y & E & Hy).
  apply Hf in E as ->. contradiction.
Qed.

(** X17: [assign_unique_ids] never raises and keeps the rows and their
    identifiers; the unique identifiers are S1, S2, ..., Sn in row order,
    whatever the identifiers and the marker are, so they are pairwise
    different; the group of a row is the number of rows, up to and
    including it, whose identifier is the marker. *)
Theorem assign_unique_ids_numbering ids marker :
  exists out,
    Geology.assign_unique_ids ids marker = Ok out
    /\ map Geology.id out = ids
    /\ map Geology.id_unico out
       = map (fun k => "S" ++ str (Z.of_nat (S k))) (seq 0 (List.length ids))
    /\ NoDup (map Geology.id_unico out)
    /\ map Geology.grupo out
       = map (fun k => hits marker (firstn (S k) ids))
           (seq 0 (List.length ids))
    /\ map Geology.group_start out
       = map (fun v => if is_marker marker v then 1%Z else 0%Z) ids.
Proof.
  unfold Geology.assign_unique_ids. cbv zeta.
  remember (map (Geology.group_start_of marker) ids) as gs eqn:Egs.
  remember (Geology.cumsum 0 gs) as grupos eqn:Egr.
  destruct (assign_loop_total (combine ids grupos) [] []) as (c & Hloop).
  assert (List.length gs = List.length ids) as Lgs
    by (rewrite Egs; apply length_map).
  assert (List.length grupos = List.length ids) as Lgr
    by (rewrite Egr; now rewrite cumsum_length).
  rewrite length_combine, Lgr, Nat.min_id in Hloop.
  change (Geology.sum_values []) with 0%Z in Hloop. cbn [Z.add app] in Hloop.
  eexists. split.
  { match goal with
    | |- bind ?r _ = _ =>
        replace r with
          (Ok (c, map (fun k => ("S" ++ str (Z.of_nat (S k)))%string)
                    (seq 0 (List.length ids))))
          by (symmetry; exact Hloop)
    end.
    cbn [bind snd]. reflexivity. }
  destruct (id_rows_columns ids gs grupos
              (map (fun k => ("S" ++ str (Z.of_nat (S k)))%string)
                 (seq 0 (List.length ids))))
    as (H1 & H2 & H3 & H4); try assumption;
    [now rewrite length_map, length_seq|].
  cbv zeta in *. rewrite H1, H2, H3, H4.
  split; [reflexivity|]. split; [reflexivity|]. split.
  - apply nodup_map_injective; [|apply seq_NoDup].
    intros j k E.
    change ("S" ++ str (Z.of_nat (S j))) with (String "S" (str (Z.of_nat (S j))))
      in E.
    change ("S" ++ str (Z.of_nat (S k))) with (String "S" (str (Z.of_nat (S k))))
      in E.
    injection E as E. apply str_injective in E. lia.
  - split.
    + rewrite Egr, Egs, cumsum_hits. apply map_ext. intros k. lia.
    + rewrite Egs. apply map_ext. now intros [s| | |].
Qed.

(** ** Degrees, minutes, seconds *)

Lemma trunc_compat x y : x == y -> OutputsMaps.trunc x = OutputsMaps.trunc y.
Proof.
  intros E. unfold OutputsMaps.trunc.
  assert (Qle_bool 0 x = Qle_bool 0 y) as ->.
  { destruct (Qle_bool 0 y) eqn:Hy.
    - apply Qle_bool_iff. apply Qle_bool_iff in Hy. lra.
    - apply Qle_bool_false. apply Qle_bool_false in Hy. lra. }
  now rewrite (Qfloor_comp _ _ E), (Qceiling_comp _ _ E).
Qed.

Lemma trunc_nonneg x :
  0 <= x ->
  (0 <= OutputsMaps.trunc x)%Z
  /\ inject_Z (OutputsMaps.trunc x) <= x
  /\ x < inject_Z (OutputsMaps.trunc x) + 1.
Proof.
  intros Hx. unfold OutputsMaps.trunc.
  assert (Qle_bool 0 x = true) as -> by now apply Qle_bool_iff.
  destruct (floor_bounds x) as [Hlo Hhi].
  pose proof (Qfloor_resp_le _ _ Hx) as H0. change (Qfloor 0) with 0%Z in H0.
  auto.
Qed.

Lemma trunc_negative x :
  x < 0 ->
  (OutputsMaps.trunc x <= 0)%Z
  /\ x <= inject_Z (OutputsMaps.trunc x)
  /\ inject_Z (OutputsMaps.trunc x) < x + 1.
Proof.
  intros Hx. unfold OutputsMaps.trunc.
  assert (Qle_bool 0 x = false) as -> by (apply Qle_bool_false; lra).
  pose proof (Qle_ceiling x) as Hlo. pose proof (Qceiling_lt x) as Hhi.
  unfold Z.sub in Hhi. rewrite inject_Z_plus, inject_Z_opp in Hhi.
  change (inject_Z 1%Z) with 1 in Hhi.
  assert (Qceiling x <= Qceiling 0)%Z as H0 by (apply Qceiling_resp_le; lra).
  change (Qceiling 0) with 0%Z in H0.
  repeat split; [exact H0 | exact Hlo | lra].
Qed.

Lemma trunc_opp x : OutputsMaps.trunc (- x) = (- OutputsMaps.trunc x)%Z.
Proof.
  unfold OutputsMaps.trunc, Qceiling.
  destruct (Qle_bool 0 x) eqn:Hx, (Qle_bool 0 (- x)) eqn:Hnx.
  - apply Qle_bool_iff in Hx, Hnx.
    assert (x == 0) as E by lra.
    rewrite (Qfloor_comp _ _ E).
    assert (- x == 0) as E' by lra. rewrite (Qfloor_comp _ _ E').
    reflexivity.
  - rewrite (Qfloor_comp (- - x) x) by ring. lia.
  - lia.
  - apply Qle_bool_false in Hx, Hnx. lra.
Qed.


Lemma append_assoc_string (a b c : string) :
  ((a ++ b) ++ c = a ++ (b ++ c))%string.
Proof. induction a as [|x a IH]; simpl; [reflexivity | now rewrite IH]. Qed.

(** X19: the labels of an angle and of its mirror image differ in the
    letter of the hemisphere only: N and S for a latitude, E and W for a
    longitude; the letter keeps the side also where [deg_to_dms] gives 0
    degrees. *)
Theorem formatter_mirror v :
  0 < v ->
  exists body,
    OutputsMaps.lat_formatter v = (body ++ "N")%string
    /\ OutputsMaps.lat_formatter (- v) = (body ++ "S")%string
    /\ OutputsMaps.lon_formatter v = (body ++ "E")%string
    /\ OutputsMaps.lon_formatter (- v) = (body ++ "W")%string.
Proof.
  intros Hv.
  unfold OutputsMaps.lat_formatter, OutputsMaps.lon_formatter,
    OutputsMaps.deg_to_dms. cbv zeta.
  assert (Qle_bool 0 v = true) as -> by (apply Qle_bool_iff; lra).
  assert (Qle_bool 0 (- v) = false) as -> by (apply Qle_bool_false; lra).
  rewrite trunc_opp, Z.abs_opp.
  set (d := OutputsMaps.trunc v).
  assert (Qabs (- v - inject_Z (- d)) * 60 == Qabs (v - inject_Z d) * 60) as Emd.
  { rewrite inject_Z_opp.
    setoid_replace (- v - - inject_Z d) with (- (v - inject_Z d)) by ring.
    now rewrite Qabs_opp. }
  rewrite (trunc_compat _ _ Emd).
  set (md := Qabs (v - inject_Z d) * 60) in *.
  set (m := OutputsMaps.trunc md).
  assert ((Qabs (- v - inject_Z (- d)) * 60 - inject_Z m) * 60
          == (md - inject_Z m) * 60) as Esd by (now rewrite Emd).
  rewrite (trunc_compat _ _ Esd).
  set (s := OutputsMaps.trunc ((md - inject_Z m) * 60)).
  exists (str (Z.abs d) ++ OutputsMaps.degree_sign ++ str m ++ "'" ++ str s
          ++ OutputsMaps.double_quote)%string.
  rewrite !append_assoc_string. repeat split; reflexivity.
Qed.

Lemma formatter_mirror_witness :
  0 < 1 # 2
  /\ exists body,
       OutputsMaps.lat_formatter (1 # 2) = (body ++ "N")%string
       /\ OutputsMaps.lat_formatter (- (1 # 2)) = (body ++ "S")%string.
Proof.
  assert (0 < 1 # 2) as H by lra.
  split; [exact H|].
  destruct (formatter_mirror (1 # 2) H) as (body & HN & HS & _).
  exists body. split; [exact HN | exact HS].
Defined.
